(** * belief-mirror: the statistics aggregator of stats.js

    A shallow embedding of the statistics pipeline of the dashboard
    (calculateStats, calculateWinLossStats, calculateWinLossByCategory,
    calculateWinLossByPriceRange, getHourDistribution, getDayDistribution)
    and the properties its specification states about it.

    Number model.  JavaScript numbers are used in two roles by stats.js:
    - counters and lengths, embedded as [nat];
    - money amounts, prices and the rates derived from them, embedded as
      exact rationals [Q], compared with [==]; IEEE rounding, overflow and
      underflow of the doubles are outside the model.  The one place where
      the source itself produces the float [Infinity] (profitFactor) has a
      constructor of its own.  The properties below are kept to what does
      not depend on the rounding: counters, comparisons, signs, and bounds
      that rounding preserves; no exact identity between rounded sums or
      quotients is stated.
    A numeric field that the source reads as [x || 0] is an [option Q]:
    [None] stands for a missing (undefined, null or NaN) value.

    Time model.  [new Date(ms)] is embedded on time values [ms : Z].  A
    time value within 8.64e15 ms of the epoch gives a valid Date, whose
    getUTCHours and getUTCDay are floor divisions of the time value; any
    other gives an invalid Date, whose getters answer [NaN] ([None]). *)

From Stdlib Require Import Ascii QArith Qabs Qround Lqa.
From Stdlib Require OrderedTypeEx.
From stdpp Require Import gmap strings list fin_maps pretty sorting.
From Equations Require Import Equations.

(** ** JavaScript helpers *)

(** [x || 0] on a numeric field. *)
Definition orZero (x : option Q) : Q := default 0%Q x.

(** [a < b] on numbers; [a > b] is [Qltb b a]. *)
Definition Qltb (a b : Q) : bool :=
  match (a ?= b)%Q with Lt => true | _ => false end.

(** A counter or a length read as a number. *)
Definition num (n : nat) : Q := inject_Z (Z.of_nat n).

(** [String.prototype.toLowerCase] on a string held as its UTF-8 bytes:
    the letters A-Z are lowered and every other byte is kept.  (The two
    characters outside ASCII whose lower case has an ASCII letter, U+0130
    and U+212A, are outside the model.) *)
Definition lowerAscii (c : ascii) : ascii :=
  let n := nat_of_ascii c in
  if (65 <=? n)%nat && (n <=? 90)%nat then ascii_of_nat (n + 32) else c.

Fixpoint toLowerCase (s : string) : string :=
  match s with
  | EmptyString => EmptyString
  | String c s' => String (lowerAscii c) (toLowerCase s')
  end.

(** [s.includes(word)]: [word] occurs in [s] as a substring. *)
Fixpoint includes (s word : string) : bool :=
  if String.prefix word s then true
  else match s with
       | EmptyString => false
       | String _ s' => includes s' word
       end.

(** ** Data model *)

Record ClosedPosition := {
  realizedPnl : option Q;
  avgPrice : option Q;
  title : option string
}.

(** The [{ wins, losses, totalPnl, count }] object of the first pass of the
    two bucketing functions. *)
Module Acc.
Record t := mk { wins : nat; losses : nat; totalPnl : Q; count : nat }.
Definition zero : t := {| wins := 0; losses := 0; totalPnl := 0; count := 0 |}.
End Acc.

(** The same object once the second pass has stored [winRate] in it. *)
Module Bucket.
Record t := mk {
  wins : nat; losses : nat; totalPnl : Q; count : nat; winRate : Q
}.
End Bucket.

(** The body shared by the two [forEach] callbacks once the bucket is
    chosen: [count++], [totalPnl += realizedPnl || 0], then [wins++] or
    [losses++] by the sign. *)
Definition record_position (position : ClosedPosition) (d : Acc.t) : Acc.t :=
  let d := {| Acc.wins := Acc.wins d; Acc.losses := Acc.losses d;
              Acc.totalPnl := Acc.totalPnl d; Acc.count := S (Acc.count d) |} in
  let d := {| Acc.wins := Acc.wins d; Acc.losses := Acc.losses d;
              Acc.totalPnl := Acc.totalPnl d + orZero (realizedPnl position);
              Acc.count := Acc.count d |} in
  if Qltb 0 (orZero (realizedPnl position)) then
    {| Acc.wins := S (Acc.wins d); Acc.losses := Acc.losses d;
       Acc.totalPnl := Acc.totalPnl d; Acc.count := Acc.count d |}
  else if Qltb (orZero (realizedPnl position)) 0 then
    {| Acc.wins := Acc.wins d; Acc.losses := S (Acc.losses d);
       Acc.totalPnl := Acc.totalPnl d; Acc.count := Acc.count d |}
  else d.

(** The second pass: [data.winRate = data.count > 0 ? (data.wins /
    data.count) * 100 : 0]. *)
Definition rate (wins count : nat) : Q :=
  if (0 <? count)%nat then (num wins / num count) * 100 else 0.

Definition with_winRate (data : Acc.t) : Bucket.t :=
  {| Bucket.wins := Acc.wins data; Bucket.losses := Acc.losses data;
     Bucket.totalPnl := Acc.totalPnl data; Bucket.count := Acc.count data;
     Bucket.winRate := rate (Acc.wins data) (Acc.count data) |}.

(** ** calculateWinLossByCategory *)

(** The [keywords] table; [Object.entries] walks it in this order. *)
Definition keywords : list (string * list string) :=
  [ ("Politics", ["election"; "president"; "congress"; "senate"; "trump";
                  "biden"; "democrat"; "republican"; "vote"; "governor";
                  "mayor"; "political"; "impeach"]);
    ("Sports", ["nba"; "nfl"; "mlb"; "world cup"; "super bowl";
                "championship"; "playoffs"; "game"; "team"; "player";
                "match"]);
    ("Crypto", ["bitcoin"; "ethereum"; "btc"; "eth"; "crypto"; "token";
                "coin"; "defi"; "nft"; "blockchain"]);
    ("Economy", ["fed"; "interest rate"; "inflation"; "gdp"; "recession";
                 "economy"; "market"; "stock"; "treasury"; "unemployment"]);
    ("Entertainment", ["oscar"; "emmy"; "movie"; "film"; "album"; "spotify";
                       "netflix"; "celebrity"; "award"]);
    ("Science", ["climate"; "nasa"; "space"; "ai"; "artificial intelligence";
                 "scientific"; "research"; "temperature"]) ].

(** The [for ... of Object.entries(keywords)] loop with its [break]. *)
Fixpoint first_match (entries : list (string * list string)) (title : string)
    (category : string) : string :=
  match entries with
  | [] => category
  | (cat, words) :: rest =>
      if existsb (fun word => includes title word) words then cat
      else first_match rest title category
  end.

Definition category_of (position : ClosedPosition) : string :=
  let title := toLowerCase (default "" (title position)) in
  first_match keywords title "Other".

(** One iteration of the [forEach]: create the bucket when it is not there
    yet, then record the position in it. *)
Definition category_step (categories : gmap string Acc.t)
    (position : ClosedPosition) : gmap string Acc.t :=
  let category := category_of position in
  let categories :=
    match categories !! category with
    | None => <[category := Acc.zero]> categories
    | Some _ => categories
    end in
  alter (record_position position) category categories.

Definition calculateWinLossByCategory (closedPositions : list ClosedPosition)
    : gmap string Bucket.t :=
  let categories := foldl category_step ∅ closedPositions in
  with_winRate <$> categories.

(** ** calculateWinLossByPriceRange *)

(** The pre-seeded [ranges] object.  (A [gmap] does not keep the insertion
    order of the keys; nothing below depends on it.) *)
Definition ranges0 : gmap string Acc.t :=
  <["Longshots (0-20¢)" := Acc.zero]>
  (<["Underdogs (20-40¢)" := Acc.zero]>
  (<["Toss-ups (40-60¢)" := Acc.zero]>
  (<["Favorites (60-80¢)" := Acc.zero]>
  (<["Heavy Favorites (80-100¢)" := Acc.zero]> ∅)))).

(** The [if / else if] chain on [avgPrice]. *)
Definition range_of (position : ClosedPosition) : string :=
  let avgPrice := orZero (avgPrice position) in
  if Qle_bool avgPrice 0.20 then "Longshots (0-20¢)"
  else if Qle_bool avgPrice 0.40 then "Underdogs (20-40¢)"
  else if Qle_bool avgPrice 0.60 then "Toss-ups (40-60¢)"
  else if Qle_bool avgPrice 0.80 then "Favorites (60-80¢)"
  else "Heavy Favorites (80-100¢)".

Definition range_step (ranges : gmap string Acc.t)
    (position : ClosedPosition) : gmap string Acc.t :=
  let range := range_of position in
  alter (record_position position) range ranges.

Definition calculateWinLossByPriceRange (closedPositions : list ClosedPosition)
    : gmap string Bucket.t :=
  let ranges := foldl range_step ranges0 closedPositions in
  with_winRate <$> ranges.

(** ** calculateWinLossStats *)

(** A number that may be the float [Infinity]. *)
Inductive Number := Finite (q : Q) | Infinity.

(** The object [calculateWinLossStats] returns.  The early return builds an
    object without the fields [breakeven], [totalWinAmount],
    [totalLossAmount], [expectancy] and [closedPositions]: they are
    options, [None] where the object has no such field. *)
Record WinLossStats := {
  totalResolved : nat;
  wins : nat;
  losses : nat;
  breakeven : option nat;
  winRate : Q;
  totalRealizedPnL : Q;
  totalWinAmount : option Q;
  totalLossAmount : option Q;
  avgWinAmount : Q;
  avgLossAmount : Q;
  biggestWin : option ClosedPosition;
  biggestLoss : option ClosedPosition;
  profitFactor : Number;
  expectancy : option Q;
  winLossByCategory : gmap string Bucket.t;
  winLossByPriceRange : gmap string Bucket.t;
  closedPositions : option (list ClosedPosition)
}.

Definition pnl (p : ClosedPosition) : Q := orZero (realizedPnl p).

(** [arr.reduce((sum, p) => sum + (p.realizedPnl || 0), 0)] *)
Definition sumPnl (arr : list ClosedPosition) : Q :=
  foldl (fun sum p => sum + pnl p)%Q 0%Q arr.

(** The three [filter]s. *)
Definition winsOf (closedPositions : list ClosedPosition) :=
  List.filter (fun p => Qltb 0 (pnl p)) closedPositions.
Definition lossesOf (closedPositions : list ClosedPosition) :=
  List.filter (fun p => Qltb (pnl p) 0) closedPositions.
Definition breakevenOf (closedPositions : list ClosedPosition) :=
  List.filter (fun p => Qeq_bool (pnl p) 0) closedPositions.

(** [arr.length > 0 ? arr.reduce((best, p) => better p best ? p : best,
    arr[0]) : null] *)
Definition extremal (better : ClosedPosition -> ClosedPosition -> bool)
    (arr : list ClosedPosition) : option ClosedPosition :=
  match arr with
  | [] => None
  | first :: _ => Some (foldl (fun best p => if better p best then p else best) first arr)
  end.

Definition calculateWinLossStats (closedPositions : option (list ClosedPosition))
    : WinLossStats :=
  match closedPositions with
  | None | Some [] =>
      {| totalResolved := 0; wins := 0; losses := 0; breakeven := None;
         winRate := 0; totalRealizedPnL := 0;
         totalWinAmount := None; totalLossAmount := None;
         avgWinAmount := 0; avgLossAmount := 0;
         biggestWin := None; biggestLoss := None;
         profitFactor := Finite 0; expectancy := None;
         winLossByCategory := ∅; winLossByPriceRange := ∅;
         closedPositions := None |}
  | Some closedPositions =>
      let wins := winsOf closedPositions in
      let losses := lossesOf closedPositions in
      let breakeven := breakevenOf closedPositions in
      let totalResolved := length closedPositions in
      let winCount := length wins in
      let lossCount := length losses in
      let winRate :=
        if (0 <? totalResolved)%nat
        then ((num winCount / num totalResolved) * 100)%Q else 0%Q in
      let totalRealizedPnL := sumPnl closedPositions in
      let totalWinAmount := sumPnl wins in
      let totalLossAmount := Qabs (sumPnl losses) in
      let avgWinAmount :=
        if (0 <? winCount)%nat then (totalWinAmount / num winCount)%Q else 0%Q in
      let avgLossAmount :=
        if (0 <? lossCount)%nat then (totalLossAmount / num lossCount)%Q else 0%Q in
      let profitFactor :=
        if Qltb 0 totalLossAmount then Finite (totalWinAmount / totalLossAmount)%Q
        else if Qltb 0 totalWinAmount then Infinity else Finite 0%Q in
      let biggestWin := extremal (fun p max => Qltb (pnl max) (pnl p)) wins in
      let biggestLoss := extremal (fun p min => Qltb (pnl p) (pnl min)) losses in
      let winLossByCategory := calculateWinLossByCategory closedPositions in
      let winLossByPriceRange := calculateWinLossByPriceRange closedPositions in
      let expectancy :=
        if (0 <? totalResolved)%nat
        then (totalRealizedPnL / num totalResolved)%Q else 0%Q in
      {| totalResolved := totalResolved; wins := winCount; losses := lossCount;
         breakeven := Some (length breakeven);
         winRate := winRate; totalRealizedPnL := totalRealizedPnL;
         totalWinAmount := Some totalWinAmount;
         totalLossAmount := Some totalLossAmount;
         avgWinAmount := avgWinAmount; avgLossAmount := avgLossAmount;
         biggestWin := biggestWin; biggestLoss := biggestLoss;
         profitFactor := profitFactor; expectancy := Some expectancy;
         winLossByCategory := winLossByCategory;
         winLossByPriceRange := winLossByPriceRange;
         closedPositions := Some closedPositions |}
  end.

(** ** Timing distributions *)

Module Activity.
(** An activity record; [side] and [type] are the strings of the API. *)
Record t := mk {
  type : string;
  side : string;
  timestamp : Z;
  usdcSize : option Q;
  price : Q;
  conditionId : string;
  title : option string
}.
End Activity.

(** The time values of the valid Dates: [new Date(ms)] is an invalid Date
    when [ms] is more than 8.64e15 ms away from the epoch. *)
Definition validTime (ms : Z) : bool :=
  (-8640000000000000 <=? ms)%Z && (ms <=? 8640000000000000)%Z.

(** [new Date(ms).getUTCHours()]: the hour of the day that holds the
    time value [ms], counted in milliseconds from the epoch; [None] is the
    [NaN] of an invalid Date. *)
Definition getUTCHours (ms : Z) : option nat :=
  if validTime ms then Some (Z.to_nat ((ms / 3600000) mod 24)) else None.

(** [new Date(ms).getUTCDay()]: the weekday, 0 for Sunday, of the day
    that holds [ms]; 1 January 1970 was a Thursday. *)
Definition getUTCDay (ms : Z) : option nat :=
  if validTime ms then Some (Z.to_nat ((ms / 86400000 + 4) mod 7)) else None.

(** [hours[hour]++]; with [NaN] for [hour] no entry of the array is
    written. *)
Definition getHourDistribution (trades : list Activity.t) : list nat :=
  let hours := replicate 24 0 in
  foldl (fun hours trade =>
           match getUTCHours (Activity.timestamp trade * 1000) with
           | Some hour => alter S hour hours
           | None => hours
           end)
        hours trades.

Definition dayNames : list string :=
  ["Sunday"; "Monday"; "Tuesday"; "Wednesday"; "Thursday"; "Friday"; "Saturday"].

Definition days0 : gmap string nat :=
  <["Sunday" := 0]> (<["Monday" := 0]> (<["Tuesday" := 0]> (<["Wednesday" := 0]>
  (<["Thursday" := 0]> (<["Friday" := 0]> (<["Saturday" := 0]> ∅)))))).

(** [days[dayNames[day]]++]; the [day] of a valid Date is below 7, so the
    name is there.  With [NaN] for [day] none of the seven counters is
    written (the source then stores [NaN] under the key [undefined], which
    the map of counters leaves out). *)
Definition getDayDistribution (trades : list Activity.t) : gmap string nat :=
  foldl (fun days trade =>
           match getUTCDay (Activity.timestamp trade * 1000) with
           | Some day =>
               match dayNames !! day with
               | Some name => alter S name days
               | None => days
               end
           | None => days
           end)
        days0 trades.

(** ** calculateStats *)

Record OpenPosition := {
  currentValue : option Q;
  cashPnl : option Q
}.

(** The [data] object that [calculateStats] destructures. *)
Module Data.
Record t := mk {
  activity : list Activity.t;
  positions : list OpenPosition;
  closedPositions : option (list ClosedPosition)
}.
End Data.

(** The fields of the returned object that the properties below read; the
    spread [...winLossStats] is the component [winLoss]. *)
Record Stats := {
  totalTrades : nat;
  totalVolume : Q;
  avgTradeSize : Q;
  buys : nat;
  sells : nat;
  buySellRatio : string;
  buyVolume : Q;
  sellVolume : Q;
  totalPositionValue : Q;
  totalUnrealizedPnL : Q;
  hourDistribution : list nat;
  dayDistribution : gmap string nat;
  positions : nat;
  winLoss : WinLossStats
}.

Definition isSide (s : string) (t : Activity.t) : bool :=
  String.eqb (Activity.side t) s.

(** [arr.reduce((sum, t) => sum + (t.usdcSize || 0), 0)] *)
Definition sumUsdc (arr : list Activity.t) : Q :=
  foldl (fun sum t => sum + orZero (Activity.usdcSize t))%Q 0%Q arr.

Section CalculateStats.

(** [Number.prototype.toFixed]: the decimal rendering of a number with
    the given count of fraction digits, a primitive of the runtime. *)
Variable toFixed : Q -> nat -> string.

Definition calculateStats (data : Data.t) : Stats :=
  let trades :=
    List.filter (fun a => String.eqb (Activity.type a) "TRADE") (Data.activity data) in
  let totalTrades := length trades in
  let totalVolume := sumUsdc trades in
  let avgTradeSize :=
    if (0 <? totalTrades)%nat then (totalVolume / num totalTrades)%Q else 0%Q in
  let buys := length (List.filter (isSide "BUY") trades) in
  let sells := length (List.filter (isSide "SELL") trades) in
  let buySellRatio :=
    if (0 <? sells)%nat then toFixed (num buys / num sells)%Q 2
    else if (0 <? buys)%nat then "∞" else "-" in
  let buyVolume := sumUsdc (List.filter (isSide "BUY") trades) in
  let sellVolume := sumUsdc (List.filter (isSide "SELL") trades) in
  let totalPositionValue :=
    foldl (fun sum p => sum + orZero (currentValue p))%Q 0%Q (Data.positions data) in
  let totalUnrealizedPnL :=
    foldl (fun sum p => sum + orZero (cashPnl p))%Q 0%Q (Data.positions data) in
  let hourDistribution := getHourDistribution trades in
  let dayDistribution := getDayDistribution trades in
  let winLossStats := calculateWinLossStats (Data.closedPositions data) in
  {| totalTrades := totalTrades; totalVolume := totalVolume;
     avgTradeSize := avgTradeSize; buys := buys; sells := sells;
     buySellRatio := buySellRatio; buyVolume := buyVolume;
     sellVolume := sellVolume; totalPositionValue := totalPositionValue;
     totalUnrealizedPnL := totalUnrealizedPnL;
     hourDistribution := hourDistribution;
     dayDistribution := dayDistribution;
     positions := length (Data.positions data);
     winLoss := winLossStats |}.

End CalculateStats.

(** ** categorizeMarkets *)

(** The [keywords] table of [categorizeMarkets]; its Sports list has two
    words more than the one of [calculateWinLossByCategory]. *)
Definition marketKeywords : list (string * list string) :=
  [ ("Politics", ["election"; "president"; "congress"; "senate"; "trump";
                  "biden"; "democrat"; "republican"; "vote"; "governor";
                  "mayor"; "political"; "impeach"]);
    ("Sports", ["nba"; "nfl"; "mlb"; "world cup"; "super bowl";
                "championship"; "playoffs"; "game"; "team"; "player";
                "win"; "score"; "match"]);
    ("Crypto", ["bitcoin"; "ethereum"; "btc"; "eth"; "crypto"; "token";
                "coin"; "defi"; "nft"; "blockchain"]);
    ("Economy", ["fed"; "interest rate"; "inflation"; "gdp"; "recession";
                 "economy"; "market"; "stock"; "treasury"; "unemployment"]);
    ("Entertainment", ["oscar"; "emmy"; "movie"; "film"; "album"; "spotify";
                       "netflix"; "celebrity"; "award"]);
    ("Science", ["climate"; "nasa"; "space"; "ai"; "artificial intelligence";
                 "scientific"; "research"; "temperature"]) ].

(** The pre-seeded [categories] object. *)
Definition categories0 : gmap string nat :=
  <["Politics" := 0]> (<["Sports" := 0]> (<["Crypto" := 0]> (<["Economy" := 0]>
  (<["Entertainment" := 0]> (<["Science" := 0]> (<["Other" := 0]> ∅)))))).

(** The [for ... of] loop of [categorizeMarkets]: the category of the first
    entry with a matching word, [None] when [found] stays false. *)
Fixpoint find_match (entries : list (string * list string)) (title : string)
    : option string :=
  match entries with
  | [] => None
  | (category, words) :: rest =>
      if existsb (fun word => includes title word) words then Some category
      else find_match rest title
  end.

(** One iteration of the [forEach]; the state is the [categories] object
    and the [marketCategories] map. *)
Definition market_step (st : gmap string nat * gmap string string)
    (trade : Activity.t) : gmap string nat * gmap string string :=
  let categories := st.1 in
  let marketCategories := st.2 in
  let title := toLowerCase (default "" (Activity.title trade)) in
  let conditionId := Activity.conditionId trade in
  match marketCategories !! conditionId with
  | Some _ => st
  | None =>
      match find_match marketKeywords title with
      | Some category =>
          (alter S category categories,
           <[conditionId := category]> marketCategories)
      | None =>
          (alter S "Other" categories,
           <[conditionId := "Other"]> marketCategories)
      end
  end.

Definition categorizeMarkets (trades : list Activity.t) : gmap string nat :=
  (foldl market_step (categories0, ∅) trades).1.

(** [categories[k]] *)
Definition marketCount (m : gmap string nat) (k : string) : nat :=
  default 0 (m !! k).

(** ** The other bindings of calculateStats *)

(** [new Set(trades.map(t => t.conditionId)).size] *)
Definition uniqueMarkets (trades : list Activity.t) : nat :=
  size (list_to_set (Activity.conditionId <$> trades) : gset string).

(** [Math.min(...arr)] and [Math.max(...arr)] of a non-empty array. *)
Definition Math_min (arr : list Z) : Z :=
  match arr with
  | [] => 0
  | x :: rest => foldl Z.min x rest
  end.

Definition Math_max (arr : list Z) : Z :=
  match arr with
  | [] => 0
  | x :: rest => foldl Z.max x rest
  end.

(** [firstTrade] and [lastTrade], as the time value of the Date, [None]
    for [null]. *)
Definition firstTrade (trades : list Activity.t) : option Z :=
  let timestamps := Activity.timestamp <$> trades in
  if (0 <? length timestamps)%nat then Some (Math_min timestamps * 1000)%Z
  else None.

Definition lastTrade (trades : list Activity.t) : option Z :=
  let timestamps := Activity.timestamp <$> trades in
  if (0 <? length timestamps)%nat then Some (Math_max timestamps * 1000)%Z
  else None.

(** [arr.reduce((sum, t) => sum + t.price, 0)] *)
Definition sumPrice (arr : list Activity.t) : Q :=
  foldl (fun sum t => sum + Activity.price t)%Q 0%Q arr.

Definition avgBuyPrice (trades : list Activity.t) : Q :=
  let buys := length (List.filter (isSide "BUY") trades) in
  if (0 <? buys)%nat
  then (sumPrice (List.filter (isSide "BUY") trades) / num buys)%Q else 0%Q.

Definition avgSellPrice (trades : list Activity.t) : Q :=
  let sells := length (List.filter (isSide "SELL") trades) in
  if (0 <? sells)%nat
  then (sumPrice (List.filter (isSide "SELL") trades) / num sells)%Q else 0%Q.

Section TradingDays.

(** [new Date(ms).toISOString().split('T')[0]]: the UTC calendar date of a
    time value, a rendering of the runtime. *)
Variable isoDate : Z -> string.

Variable toFixed : Q -> nat -> string.

Definition tradingDays (trades : list Activity.t) : nat :=
  size (list_to_set
          ((fun t => isoDate (Activity.timestamp t * 1000)) <$> trades)
        : gset string).

(** [tradesPerDay] is the text of [toFixed(1)], or the number 0. *)
Definition tradesPerDay (trades : list Activity.t) : string + Q :=
  let totalTrades := length trades in
  if (0 <? tradingDays trades)%nat
  then inl (toFixed (num totalTrades / num (tradingDays trades))%Q 1)
  else inr 0%Q.

End TradingDays.

(** ** Arrays and objects of the runtime *)

(** An object whose string keys are kept in insertion order: reading a
    key, and [obj[k] = v], which overwrites in place or appends. *)
Fixpoint obj_get {V : Type} (k : string) (obj : list (string * V)) : option V :=
  match obj with
  | [] => None
  | (k', v) :: rest => if String.eqb k' k then Some v else obj_get k rest
  end.

Fixpoint obj_set {V : Type} (k : string) (v : V) (obj : list (string * V))
    : list (string * V) :=
  match obj with
  | [] => [(k, v)]
  | (k', v') :: rest =>
      if String.eqb k' k then (k', v) :: rest else (k', v') :: obj_set k v rest
  end.

(** An in-place update of the value under a key that is there. *)
Fixpoint obj_update {V : Type} (k : string) (f : V -> V) (obj : list (string * V))
    : list (string * V) :=
  match obj with
  | [] => []
  | (k', v') :: rest =>
      if String.eqb k' k then (k', f v') :: rest else (k', v') :: obj_update k f rest
  end.

(** The order that [entries.sort(([a], [b]) => a.localeCompare(b))] sorts
    month keys by: on these keys, made of digits and hyphens,
    [localeCompare] is the order of the code units. *)
Definition key_le {V : Type} (a b : string * V) : Prop :=
  String.leb a.1 b.1 = true.

Global Instance key_le_dec {V : Type} (a b : string * V) : Decision (key_le a b).
Proof. unfold key_le. apply _. Defined.

(** The order that [sort((a, b) => b - a)] sorts numbers by. *)
Definition Qge_dec (a b : Q) : Decision (b <= a)%Q :=
  match Qlt_le_dec a b with
  | left H => right (Qlt_not_le a b H)
  | right H => left H
  end.

(** ** getMonthlyVolume *)

Module Month.
Record t := mk { volume : Q; trades : nat; buys : nat; sells : nat }.
Definition zero : t := {| volume := 0; trades := 0; buys := 0; sells := 0 |}.
End Month.

(** [s.padStart(targetLength, c)] for a one-character pad string. *)
Definition padStart (targetLength : nat) (c : ascii) (s : string) : string :=
  String.string_of_list_ascii (replicate (targetLength - String.length s) c) +:+ s.

(** What one trade adds to the record of its month. *)
Definition month_record (trade : Activity.t) (m : Month.t) : Month.t :=
  let m := {| Month.volume := Month.volume m + orZero (Activity.usdcSize trade);
              Month.trades := Month.trades m; Month.buys := Month.buys m;
              Month.sells := Month.sells m |} in
  let m := {| Month.volume := Month.volume m; Month.trades := S (Month.trades m);
              Month.buys := Month.buys m; Month.sells := Month.sells m |} in
  let m := if String.eqb (Activity.side trade) "BUY"
           then {| Month.volume := Month.volume m; Month.trades := Month.trades m;
                   Month.buys := S (Month.buys m); Month.sells := Month.sells m |}
           else m in
  if String.eqb (Activity.side trade) "SELL"
  then {| Month.volume := Month.volume m; Month.trades := Month.trades m;
          Month.buys := Month.buys m; Month.sells := S (Month.sells m) |}
  else m.

Section MonthlyVolume.

(** [new Date(ms).getUTCFullYear()] and [new Date(ms).getUTCMonth()], the
    calendar of the runtime. *)
Variable getUTCFullYear : Z -> Z.
Variable getUTCMonth : Z -> nat.

(** The template [`${year}-${String(month + 1).padStart(2, '0')}`]. *)
Definition monthKey (ms : Z) : string :=
  pretty (getUTCFullYear ms) +:+ "-" +:+ padStart 2 "0" (pretty (getUTCMonth ms + 1)).

Definition month_step (monthly : list (string * Month.t)) (trade : Activity.t)
    : list (string * Month.t) :=
  let key := monthKey (Activity.timestamp trade * 1000) in
  let monthly :=
    match obj_get key monthly with
    | None => obj_set key Month.zero monthly
    | Some _ => monthly
    end in
  obj_update key (month_record trade) monthly.

Definition getMonthlyVolume (trades : list Activity.t) : list (string * Month.t) :=
  let monthly := foldl month_step [] trades in
  let sorted := merge_sort key_le monthly in
  foldl (fun obj entry => obj_set entry.1 entry.2 obj) [] sorted.

End MonthlyVolume.

(** ** leaderboard.js: calculateRank, getRankText, getRankClass *)

(** [Math.round]: the nearest integer, a half rounded up. *)
Definition Math_round (x : Q) : Z := Qfloor (x + (1 # 2))%Q.

(** The [for] loop of [calculateRank] from index [i] on, [rest] being the
    part of [sorted] that starts there and [n] its whole length. *)
Fixpoint rank_loop (value : Q) (n i : nat) (rest : list Q) : Q :=
  match rest with
  | [] => 0
  | x :: rest' =>
      if Qle_bool x value then (num (n - i) / num n * 100)%Q
      else rank_loop value n (S i) rest'
  end.

Definition calculateRank (value : Q) (allValues : list Q) : Z :=
  let sorted := @merge_sort Q (fun a b => (b <= a)%Q) Qge_dec allValues in
  let rank := rank_loop value (length sorted) 0 sorted in
  let rank := if Qeq_bool rank 0 then 5%Q else rank in
  Math_round rank.

Definition getRankText (percentile : Z) : string :=
  if (90 <=? percentile)%Z then "Top 10%"
  else if (75 <=? percentile)%Z then "Top 25%"
  else if (50 <=? percentile)%Z then "Top 50%"
  else if (25 <=? percentile)%Z then "Top 75%"
  else "Bottom 25%".

Definition getRankClass (percentile : Z) : string :=
  if (75 <=? percentile)%Z then "rank-top"
  else if (50 <=? percentile)%Z then "rank-mid"
  else "rank-low".

(** ** api.js: the paginated fetches *)

(** What one request gives: a response with [ok] set whose body is the
    array [data], a response without [ok] and its status, or a rejected
    promise (no network, or a body that is no JSON).  A response with [ok]
    set whose body is JSON but no array is not among them: the loops are
    modelled against an API whose successful answers are arrays. *)
Inductive Response (A : Type) : Type :=
| Ok (data : list A)
| NotOk (status : nat)
| Rejected.
Arguments Ok {A} data.
Arguments NotOk {A} status.
Arguments Rejected {A}.

(** The safety limit of both loops: they stop once [offset >= 10000]. *)
Definition recordLimit : nat := 10000.

Section Fetch.

Context {A : Type}.

(** The API seen from one run of a loop: the response to the request at
    each offset (a loop asks for an offset at most once). *)
Variable page : nat -> Response A.

(** The [while (hasMore)] loop of [fetchClosedPositions], with [limit]
    50; any response that is not [ok], and any exception, ends it with
    what was fetched so far. *)
Equations? closed_loop (allClosed : list A) (offset : nat) : list A
  by wf (recordLimit - offset) lt :=
closed_loop allClosed offset with page offset := {
  | Ok data with decide (length data = 0) := {
    | left _ => allClosed
    | right _ with decide (recordLimit <= offset + length data) := {
      | left _ => allClosed ++ data
      | right _ with decide (length data < 50) := {
        | left _ => allClosed ++ data
        | right _ => closed_loop (allClosed ++ data) (offset + length data) } } };
  | NotOk status => allClosed
  | Rejected => allClosed }.
Proof. lia. Qed.

Definition fetchClosedPositions : list A := closed_loop [] 0.

(** The loop of [fetchAllActivity], with batches of 500; [fetchActivity]
    rethrows, so a failed request rejects the whole fetch ([None]). *)
Equations? activity_loop (allActivity : list A) (offset : nat) : option (list A)
  by wf (recordLimit - offset) lt :=
activity_loop allActivity offset with page offset := {
  | Ok batch with decide (length batch = 0) := {
    | left _ => Some allActivity
    | right _ with decide (recordLimit <= offset + length batch) := {
      | left _ => Some (allActivity ++ batch)
      | right _ with decide (length batch < 500) := {
        | left _ => Some (allActivity ++ batch)
        | right _ => activity_loop (allActivity ++ batch) (offset + length batch) } } };
  | NotOk status => None
  | Rejected => None }.
Proof. lia. Qed.

Definition fetchAllActivity : option (list A) := activity_loop [] 0.

End Fetch.

(** An API that serves the records of a wallet by slices of at most
    [limit] records from the requested offset. *)
Definition slices {A : Type} (limit : nat) (records : list A) (offset : nat)
    : Response A :=
  Ok (take limit (drop offset records)).

(** The same API with one request that fails: the one at [failed]. *)
Definition failing_at {A : Type} (failure : Response A) (failed limit : nat)
    (records : list A) (offset : nat) : Response A :=
  if decide (offset = failed) then failure else slices limit records offset.

(** ** Readings of the result and sample inputs *)

(** [Object.keys(ranges)] *)
Definition rangeLabels : list string :=
  ["Longshots (0-20¢)"; "Underdogs (20-40¢)"; "Toss-ups (40-60¢)";
   "Favorites (60-80¢)"; "Heavy Favorites (80-100¢)"].

(** [ranges[k].count], and 0 for a bucket that is not there. *)
Definition bucketCount (m : gmap string Bucket.t) (k : string) : nat :=
  from_option Bucket.count 0 (m !! k).


(** A profit factor that is the number 0. *)
Definition isZero (n : Number) : Prop :=
  match n with
  | Finite q => (q == 0)%Q
  | Infinity => False
  end.

(** The two closed positions of the specification's scenario. *)
Definition scenario : list ClosedPosition :=
  [ {| realizedPnl := Some 50%Q; avgPrice := Some 0.15%Q;
       title := Some "Will BTC hit 100k" |};
    {| realizedPnl := Some (-20)%Q; avgPrice := Some 0.70%Q;
       title := Some "NBA Finals Winner" |} ].

(** A history of one losing position. *)
Definition single_loss : list ClosedPosition :=
  [ {| realizedPnl := Some (-20)%Q; avgPrice := Some 0.70%Q;
       title := Some "NBA Finals Winner" |} ].

(** ** Further readings of the bucket maps *)

(** [ranges[k].wins] and [ranges[k].losses], and 0 for a bucket that is
    not there. *)
Definition bucketWins (m : gmap string Bucket.t) (k : string) : nat :=
  from_option Bucket.wins 0 (m !! k).

Definition bucketLosses (m : gmap string Bucket.t) (k : string) : nat :=
  from_option Bucket.losses 0 (m !! k).

(** The counters and the rate of a bucket, without its amount. *)
Definition tallies (b : Bucket.t) : nat * nat * nat * Q :=
  (Bucket.count b, Bucket.wins b, Bucket.losses b, Bucket.winRate b).

(** The sum of a list of amounts. *)
Definition sumQ (l : list Q) : Q := foldr Qplus 0%Q l.

(** The categories a closed position can fall in: the keys of [keywords]
    and the default. *)
Definition categoryNames : list string := keywords.*1 ++ ["Other"].

(** What a position adds to the [wins] and to the [losses] of its bucket. *)
Definition winUnit (p : ClosedPosition) : nat := if Qltb 0 (pnl p) then 1 else 0.
Definition lossUnit (p : ClosedPosition) : nat := if Qltb (pnl p) 0 then 1 else 0.

(** A bucket is well-formed when its tallies fit its count and, as long
    as nothing was recorded in it, it is the zero bucket. *)
Definition tallied (d : Acc.t) : Prop :=
  Acc.wins d + Acc.losses d <= Acc.count d /\
  (Acc.count d = 0 -> d = Acc.zero).

(** An activity array of a buy, a sell and a record that is no trade, and
    a rendering that prints nothing, for the evaluations below. *)
Definition sample_activity : list Activity.t :=
  [ Activity.mk "TRADE" "BUY" 1700000000 (Some 10%Q) 0.5 "0xabc" (Some "Will BTC hit 100k");
    Activity.mk "TRADE" "SELL" 1700003600 (Some 4%Q) 0.6 "0xdef" (Some "NBA Finals Winner");
    Activity.mk "REWARD" "" 1700007200 (Some 1%Q) 0 "" None ].

Definition sample_data : Data.t := Data.mk sample_activity [] None.

Definition blank_toFixed : Q -> nat -> string := fun _ _ => "".

(** * Properties *)

(** ** Comparisons and counters as numbers *)

Section NumberFacts.

Lemma Qltb_lt (a b : Q) : Qltb a b = true <-> (a < b)%Q.
Proof.
  unfold Qltb. rewrite Qlt_alt.
  destruct (a ?= b)%Q; split; congruence.
Qed.

Lemma Qltb_ge (a b : Q) : Qltb a b = false <-> (b <= a)%Q.
Proof.
  rewrite <- not_true_iff_false, Qltb_lt. split.
  - apply Qnot_lt_le.
  - apply Qle_not_lt.
Qed.

Lemma num_nonneg (n : nat) : (0 <= num n)%Q.
Proof. unfold num. change 0%Q with (inject_Z 0). rewrite <- Zle_Qle. lia. Qed.

Lemma num_pos (n : nat) : 0 < n -> (0 < num n)%Q.
Proof.
  intros Hn. unfold num. change 0%Q with (inject_Z 0).
  rewrite <- Zlt_Qlt. lia.
Qed.

Lemma num_le (n m : nat) : n <= m -> (num n <= num m)%Q.
Proof. intros Hnm. unfold num. rewrite <- Zle_Qle. lia. Qed.

Lemma num_zero_iff (n : nat) : (num n == 0)%Q <-> n = 0.
Proof.
  unfold num. split.
  - intros H. unfold Qeq in H. simpl in H. lia.
  - intros ->. reflexivity.
Qed.

(** The percentage [part / whole * 100] of a part of a non-empty whole. *)
Lemma percent_bounds (part whole : nat) :
  part <= whole -> 0 < whole ->
  (0 <= num part / num whole * 100 <= 100)%Q.
Proof.
  intros Hle Hpos.
  pose proof (num_pos _ Hpos) as Hw.
  pose proof (num_nonneg part) as Hp.
  pose proof (num_le _ _ Hle) as Hpw.
  assert (0 <= num part / num whole)%Q as H0.
  { apply Qle_shift_div_l; [exact Hw | lra]. }
  assert (num part / num whole <= 1)%Q as H1.
  { apply Qle_shift_div_r; [exact Hw | lra]. }
  lra.
Qed.

Lemma percent_zero_iff (part whole : nat) :
  0 < whole -> (num part / num whole * 100 == 0)%Q <-> part = 0.
Proof.
  intros Hpos. pose proof (num_pos _ Hpos) as Hw.
  rewrite <- num_zero_iff. split.
  - intros H.
    assert (num part / num whole == 0)%Q as Hq by lra.
    assert (~ num whole == 0)%Q as Hne by lra.
    rewrite <- (Qmult_div_r (num part) (num whole) Hne).
    rewrite Hq. ring.
  - intros H. rewrite H. field. lra.
Qed.

End NumberFacts.

(** ** The three partitions *)

Section Partitions.

Lemma sign_cases (x : Q) :
  (Qltb 0 x = true /\ Qltb x 0 = false /\ Qeq_bool x 0 = false) \/
  (Qltb 0 x = false /\ Qltb x 0 = true /\ Qeq_bool x 0 = false) \/
  (Qltb 0 x = false /\ Qltb x 0 = false /\ Qeq_bool x 0 = true).
Proof.
  destruct (Q_dec 0 x) as [[Hlt | Hgt] | Heq].
  - left. rewrite (proj2 (Qltb_lt 0 x) Hlt), (proj2 (Qltb_ge x 0)) by lra.
    repeat split. apply not_true_iff_false. rewrite Qeq_bool_iff. lra.
  - right; left.
    rewrite (proj2 (Qltb_lt x 0) Hgt), (proj2 (Qltb_ge 0 x)) by lra.
    repeat split. apply not_true_iff_false. rewrite Qeq_bool_iff. lra.
  - right; right. rewrite !(proj2 (Qltb_ge _ _)) by lra.
    repeat split. apply Qeq_bool_iff. lra.
Qed.

Lemma partition_length (l : list ClosedPosition) :
  length (winsOf l) + length (lossesOf l) + length (breakevenOf l) = length l.
Proof.
  unfold winsOf, lossesOf, breakevenOf.
  induction l as [| p l IH]; [reflexivity |].
  cbn [List.filter].
  destruct (sign_cases (pnl p)) as [(-> & -> & ->) | [(-> & -> & ->) | (-> & -> & ->)]];
    cbn [length]; lia.
Qed.

Lemma winsOf_pos (l : list ClosedPosition) :
  Forall (fun p => (0 < pnl p)%Q) (winsOf l).
Proof.
  apply Forall_forall. intros p Hp. apply list_elem_of_In in Hp.
  apply filter_In in Hp. apply Qltb_lt, Hp.
Qed.

Lemma lossesOf_neg (l : list ClosedPosition) :
  Forall (fun p => (pnl p < 0)%Q) (lossesOf l).
Proof.
  apply Forall_forall. intros p Hp. apply list_elem_of_In in Hp.
  apply filter_In in Hp. apply Qltb_lt, Hp.
Qed.

(** The running sum of [reduce] never falls below its start on
    non-negative amounts. *)
Lemma foldl_pnl_ge (l : list ClosedPosition) (a : Q) :
  Forall (fun p => (0 <= pnl p)%Q) l ->
  (a <= foldl (fun sum p => sum + pnl p)%Q a l)%Q.
Proof.
  intros Hl. revert a.
  induction Hl as [| p l Hp _ IH]; intros a; cbn [foldl]; [lra |].
  specialize (IH (a + pnl p)%Q). lra.
Qed.

Lemma totalWin_nonneg (l : list ClosedPosition) : (0 <= sumPnl (winsOf l))%Q.
Proof.
  apply foldl_pnl_ge. eapply Forall_impl; [apply winsOf_pos |].
  cbn. intros p Hp. lra.
Qed.

End Partitions.

(** ** The fields of a non-empty analysis *)

Section NonEmpty.

Variable closedPositions : list ClosedPosition.
Hypothesis nonempty : closedPositions <> [].

Let r := calculateWinLossStats (Some closedPositions).

Local Ltac by_cases :=
  subst r; destruct closedPositions; [congruence | reflexivity].

Lemma totalResolved_nonempty : totalResolved r = length closedPositions.
Proof using nonempty. by_cases. Qed.

Lemma wins_nonempty : wins r = length (winsOf closedPositions).
Proof using nonempty. by_cases. Qed.

Lemma losses_nonempty : losses r = length (lossesOf closedPositions).
Proof using nonempty. by_cases. Qed.

Lemma breakeven_nonempty :
  breakeven r = Some (length (breakevenOf closedPositions)).
Proof using nonempty. by_cases. Qed.

Lemma winRate_nonempty :
  winRate r =
  (num (length (winsOf closedPositions)) / num (length closedPositions) * 100)%Q.
Proof using nonempty. by_cases. Qed.

Lemma totalWinAmount_nonempty :
  totalWinAmount r = Some (sumPnl (winsOf closedPositions)).
Proof using nonempty. by_cases. Qed.

Lemma totalLossAmount_nonempty :
  totalLossAmount r = Some (Qabs (sumPnl (lossesOf closedPositions))).
Proof using nonempty. by_cases. Qed.

Lemma profitFactor_nonempty :
  profitFactor r =
  let totalWinAmount := sumPnl (winsOf closedPositions) in
  let totalLossAmount := Qabs (sumPnl (lossesOf closedPositions)) in
  if Qltb 0 totalLossAmount then Finite (totalWinAmount / totalLossAmount)%Q
  else if Qltb 0 totalWinAmount then Infinity else Finite 0%Q.
Proof using nonempty. by_cases. Qed.

Lemma biggestWin_nonempty :
  biggestWin r =
  extremal (fun p max => Qltb (pnl max) (pnl p)) (winsOf closedPositions).
Proof using nonempty. by_cases. Qed.

Lemma biggestLoss_nonempty :
  biggestLoss r =
  extremal (fun p min => Qltb (pnl p) (pnl min)) (lossesOf closedPositions).
Proof using nonempty. by_cases. Qed.

Lemma winLossByPriceRange_nonempty :
  winLossByPriceRange r = calculateWinLossByPriceRange closedPositions.
Proof using nonempty. by_cases. Qed.

Lemma winLossByCategory_nonempty :
  winLossByCategory r = calculateWinLossByCategory closedPositions.
Proof using nonempty. by_cases. Qed.

End NonEmpty.

(** ** Win/loss scalars *)

(** C4. For every non-empty [closedPositions], [totalResolved] is the
    length of the input and the counts [wins], [losses] and [breakeven]
    (positions with [realizedPnl || 0] above, below and equal to 0) add up
    to it exactly. *)
Theorem wins_losses_breakeven_total (closedPositions : list ClosedPosition) :
  closedPositions <> [] ->
  let r := calculateWinLossStats (Some closedPositions) in
  totalResolved r = length closedPositions /\
  exists b, breakeven r = Some b /\ wins r + losses r + b = totalResolved r.
Proof.
  intros Hne r. subst r.
  rewrite totalResolved_nonempty, wins_nonempty, losses_nonempty,
    breakeven_nonempty by assumption.
  split; [reflexivity |].
  eexists; split; [reflexivity |]. apply partition_length.
Qed.

Lemma wins_losses_breakeven_total_witness :
  scenario <> [] /\
  exists b, breakeven (calculateWinLossStats (Some scenario)) = Some b /\
    wins (calculateWinLossStats (Some scenario))
    + losses (calculateWinLossStats (Some scenario)) + b
    = totalResolved (calculateWinLossStats (Some scenario)).
Proof.
  split; [discriminate |].
  apply (wins_losses_breakeven_total scenario). discriminate.
Defined.

(** C2 fails as stated: a history of one losing position has
    [totalResolved = 1] and still [winRate = 0]. *)
Lemma winRate_zero_with_resolved :
  let r := calculateWinLossStats (Some single_loss) in
  ~ ((winRate r == 0)%Q <-> totalResolved r = 0).
Proof.
  cbv zeta. intros [Hzero _].
  assert (totalResolved (calculateWinLossStats (Some single_loss)) = 0) as H.
  { apply Hzero. vm_compute. reflexivity. }
  vm_compute in H. discriminate H.
Qed.

(** C2 (as amended). For every input, [winRate] lies in [0,100]; it is 0
    exactly when there is no winning position, which includes the case
    [totalResolved = 0]. *)
Theorem winRate_range (closedPositions : option (list ClosedPosition)) :
  let r := calculateWinLossStats closedPositions in
  (0 <= winRate r <= 100)%Q /\
  ((winRate r == 0)%Q <-> wins r = 0) /\
  (totalResolved r = 0 -> (winRate r == 0)%Q).
Proof.
  cbv zeta.
  destruct closedPositions as [[| p l] |];
    try (repeat split; cbn; first [lra | reflexivity | intros; reflexivity]).
  set (cps := p :: l). assert (cps <> []) as Hne by discriminate.
  rewrite winRate_nonempty, wins_nonempty, totalResolved_nonempty by assumption.
  assert (0 < length cps) as Hpos by (cbn; lia).
  assert (length (winsOf cps) <= length cps) as Hle.
  { pose proof (partition_length cps). lia. }
  split; [apply percent_bounds; assumption |].
  split; [apply percent_zero_iff; assumption |].
  intros H0. lia.
Qed.

(** C3 fails as stated: with one losing position of -20 the profit factor
    is [0 / 20 = 0] although [totalLossAmount] is 20, not 0. *)
Lemma profitFactor_zero_with_losses :
  let r := calculateWinLossStats (Some single_loss) in
  ~ (isZero (profitFactor r) <->
     (orZero (totalWinAmount r) == 0)%Q /\ (orZero (totalLossAmount r) == 0)%Q).
Proof.
  cbv zeta. intros [Hzero _].
  assert (isZero (profitFactor (calculateWinLossStats (Some single_loss)))) as H
    by (vm_compute; reflexivity).
  apply Hzero in H. destruct H as [_ H].
  vm_compute in H. discriminate H.
Qed.

(** C3 (as amended). For every input, with [totalWinAmount] and
    [totalLossAmount] the fields of the result (read as 0 where the result
    of the empty input has no such field): [profitFactor] is [Infinity]
    whenever [totalLossAmount] is 0 and [totalWinAmount] is positive, that
    is whenever there are wins and no loss, and it can be [Infinity] only
    with a positive [totalWinAmount]; [profitFactor] is 0 whenever
    [totalWinAmount] is 0, that is whenever there is no win, whatever
    [totalLossAmount] is. *)
Theorem profitFactor_cases (closedPositions : option (list ClosedPosition)) :
  let r := calculateWinLossStats closedPositions in
  let W := orZero (totalWinAmount r) in
  let L := orZero (totalLossAmount r) in
  ((L == 0)%Q -> (0 < W)%Q -> profitFactor r = Infinity) /\
  (0 < wins r -> losses r = 0 -> profitFactor r = Infinity) /\
  (profitFactor r = Infinity -> (0 < W)%Q /\ 0 < wins r) /\
  ((W == 0)%Q -> isZero (profitFactor r)) /\
  (wins r = 0 -> isZero (profitFactor r)).
Proof.
  cbv zeta.
  destruct closedPositions as [[| p l] |];
    try (cbn; repeat split; intros; first [discriminate | lia | lra | reflexivity]).
  set (cps := p :: l). assert (cps <> []) as Hne by discriminate.
  rewrite profitFactor_nonempty, totalWinAmount_nonempty,
    totalLossAmount_nonempty, wins_nonempty, losses_nonempty by assumption.
  cbv zeta. cbn [orZero from_option id].
  assert ((0 <= sumPnl (winsOf cps))%Q /\
          ((sumPnl (winsOf cps) == 0)%Q <-> length (winsOf cps) = 0)) as [HW HWz].
  { split; [apply totalWin_nonneg |]. unfold sumPnl.
    destruct (winsOf cps) as [| q w] eqn:E; [cbn; split; intros; reflexivity |].
    pose proof (winsOf_pos cps) as Hpos. rewrite E in Hpos.
    apply Forall_cons in Hpos as [Hq Hw].
    assert (0 + pnl q <= foldl (fun sum p => sum + pnl p) (0 + pnl q) w)%Q as Hge.
    { apply foldl_pnl_ge. eapply Forall_impl; [exact Hw |]. cbn. intros; lra. }
    cbn [foldl length]. split; [intros H0; exfalso; lra | discriminate]. }
  assert (length (lossesOf cps) = 0 -> (Qabs (sumPnl (lossesOf cps)) == 0)%Q) as HLz.
  { intros H0. apply length_zero_iff_nil in H0. rewrite H0. reflexivity. }
  pose proof (Qabs_nonneg (sumPnl (lossesOf cps))) as HL.
  set (W := sumPnl (winsOf cps)) in *.
  set (L := Qabs (sumPnl (lossesOf cps))) in *.
  set (w := length (winsOf cps)) in *. set (n := length (lossesOf cps)) in *.
  clearbody W L w n.
  assert (0 < w -> (0 < W)%Q) as HWpos.
  { intros Hw. destruct (Qlt_le_dec 0 W) as [H | H]; [exact H |].
    assert (W == 0)%Q as H0 by lra. apply HWz in H0. lia. }
  assert ((0 < W)%Q -> 0 < w) as Hwpos.
  { intros HWp. destruct w; [| lia].
    assert (W == 0)%Q as H0 by (apply HWz; reflexivity). exfalso; lra. }
  destruct (Qltb 0 L) eqn:EL.
  - apply Qltb_lt in EL. cbn [isZero].
    split; [intros H0 _; exfalso; lra |].
    split; [intros _ Hn; apply HLz in Hn; exfalso; lra |].
    split; [discriminate |].
    assert ((W == 0)%Q -> (W / L == 0)%Q) as Hq
      by (intros HW0; rewrite HW0; field; lra).
    split; [exact Hq |].
    intros Hw. apply Hq, HWz, Hw.
  - apply Qltb_ge in EL. destruct (Qltb 0 W) eqn:EW.
    + apply Qltb_lt in EW. cbn [isZero].
      split; [reflexivity |]. split; [reflexivity |].
      split; [intros _; split; [exact EW | apply Hwpos, EW] |].
      split; [intros H0; exfalso; lra |].
      intros Hw. apply HWz in Hw. exfalso; lra.
    + apply Qltb_ge in EW. cbn [isZero].
      split; [intros _ HWp; exfalso; lra |].
      split; [intros Hw _; apply HWpos in Hw; exfalso; lra |].
      split; [discriminate |].
      split; intros; reflexivity.
Qed.

(** C1 fails as stated: on the empty array the result has no price-range
    bucket at all, so the five buckets are not there zero-filled. *)
Lemma empty_analysis_no_price_buckets :
  ~ (forall range, In range rangeLabels ->
       exists b, winLossByPriceRange (calculateWinLossStats (Some [])) !! range = Some b /\
                 Bucket.count b = 0).
Proof.
  intros H. destruct (H "Longshots (0-20¢)") as (b & Hb & _).
  - left. reflexivity.
  - cbn in Hb. rewrite lookup_empty in Hb. discriminate Hb.
Qed.

(** C1 (as amended). For an empty or absent [closedPositions] the result
    has [totalResolved], [wins], [losses], [winRate], [totalRealizedPnL],
    [avgWinAmount], [avgLossAmount] and [profitFactor] all 0,
    [biggestWin] and [biggestLoss] null, and both bucket maps empty. *)
Theorem empty_analysis (closedPositions : option (list ClosedPosition)) :
  default [] closedPositions = [] ->
  let r := calculateWinLossStats closedPositions in
  totalResolved r = 0 /\ wins r = 0 /\ losses r = 0 /\
  winRate r = 0%Q /\ totalRealizedPnL r = 0%Q /\
  avgWinAmount r = 0%Q /\ avgLossAmount r = 0%Q /\
  profitFactor r = Finite 0 /\
  biggestWin r = None /\ biggestLoss r = None /\
  winLossByCategory r = ∅ /\ winLossByPriceRange r = ∅.
Proof.
  intros Hempty.
  destruct closedPositions as [l |]; cbn in Hempty; [subst l |];
    cbn; repeat split.
Qed.

Lemma empty_analysis_witness :
  default [] (Some []) = @nil ClosedPosition /\
  winLossByPriceRange (calculateWinLossStats (Some [])) = ∅.
Proof.
  split; [reflexivity |].
  apply (empty_analysis (Some [])). reflexivity.
Defined.

(** ** Counters kept under string keys *)

Section KeyedCounters.

Context {V : Type} (g : V -> nat).

Let total (keys : list string) (m : gmap string V) : nat :=
  sum_list ((fun k => from_option g 0 (m !! k)) <$> keys).

Lemma total_alter_other (keys : list string) (k : string) (f : V -> V)
    (m : gmap string V) :
  k ∉ keys -> total keys (alter f k m) = total keys m.
Proof.
  subst total. cbv beta.
  induction keys as [| a keys IH]; intros Hk; [reflexivity |].
  apply not_elem_of_cons in Hk as [Hne Hk].
  cbn [fmap list_fmap sum_list]. rewrite lookup_alter_ne by exact Hne.
  f_equal. apply IH, Hk.
Qed.

Lemma total_alter_incr (keys : list string) (k : string) (f : V -> V)
    (m : gmap string V) :
  NoDup keys -> k ∈ keys -> is_Some (m !! k) ->
  (forall x, g (f x) = S (g x)) ->
  total keys (alter f k m) = S (total keys m).
Proof.
  intros Hnd Hin [x Hx] Hf.
  induction Hnd as [| a keys Ha Hnd IH]; [inversion Hin |].
  pose proof (total_alter_other keys) as Hother.
  subst total. cbv beta in *. cbn [fmap list_fmap sum_list].
  destruct (decide (k = a)) as [-> | Hne].
  - rewrite lookup_alter_eq, Hx. cbn [fmap option_fmap option_map from_option].
    rewrite Hf, Hother by exact Ha. reflexivity.
  - rewrite lookup_alter_ne by exact Hne.
    apply elem_of_cons in Hin as [Heq | Hin]; [congruence |].
    rewrite (IH Hin). lia.
Qed.

End KeyedCounters.

(** ** Price-range buckets *)

Section PriceRanges.

Lemma record_position_count (p : ClosedPosition) (d : Acc.t) :
  Acc.count (record_position p d) = S (Acc.count d).
Proof.
  unfold record_position.
  destruct (Qltb 0 (orZero (realizedPnl p))); [reflexivity |].
  destruct (Qltb (orZero (realizedPnl p)) 0); reflexivity.
Qed.

Lemma Qle_bool_false (x y : Q) : Qle_bool x y = false <-> (y < x)%Q.
Proof.
  rewrite <- not_true_iff_false, Qle_bool_iff. split.
  - apply Qnot_le_lt.
  - apply Qlt_not_le.
Qed.

Lemma range_of_label (p : ClosedPosition) : range_of p ∈ rangeLabels.
Proof.
  unfold range_of, rangeLabels.
  repeat match goal with
         | |- context [Qle_bool ?a ?b] => destruct (Qle_bool a b)
         end; set_solver.
Qed.

Lemma rangeLabels_NoDup : NoDup rangeLabels.
Proof. apply (bool_decide_unpack _). vm_compute. reflexivity. Qed.

Lemma dom_ranges0 : dom ranges0 = list_to_set rangeLabels.
Proof.
  unfold ranges0, rangeLabels. rewrite !dom_insert_L, dom_empty_L.
  cbn [list_to_set foldr]. reflexivity.
Qed.

Lemma ranges0_zero : map_Forall (fun _ d => d = Acc.zero) ranges0.
Proof.
  unfold ranges0. repeat apply map_Forall_insert_2; try reflexivity.
  apply map_Forall_empty.
Qed.

Lemma dom_range_fold (l : list ClosedPosition) (m : gmap string Acc.t) :
  dom (foldl range_step m l) = dom m.
Proof.
  revert m. induction l as [| p l IH]; intros m; [reflexivity |].
  cbn [foldl]. rewrite IH. unfold range_step. apply dom_alter_L.
Qed.

Lemma count_range_fold (l : list ClosedPosition) (m : gmap string Acc.t) :
  dom m = list_to_set rangeLabels ->
  sum_list ((fun k => from_option Acc.count 0 (foldl range_step m l !! k))
            <$> rangeLabels)
  = sum_list ((fun k => from_option Acc.count 0 (m !! k)) <$> rangeLabels)
    + length l.
Proof.
  revert m. induction l as [| p l IH]; intros m Hdom; cbn [foldl length].
  - lia.
  - rewrite IH.
    + unfold range_step.
      rewrite (total_alter_incr Acc.count rangeLabels).
      * lia.
      * apply rangeLabels_NoDup.
      * apply range_of_label.
      * apply elem_of_dom. rewrite Hdom. apply elem_of_list_to_set.
        apply range_of_label.
      * apply record_position_count.
    + unfold range_step. rewrite dom_alter_L. exact Hdom.
Qed.

(** A position is counted in the bucket that [range_of] names, and in no
    other. *)
Lemma count_range_at (range : string) (l : list ClosedPosition)
    (m : gmap string Acc.t) :
  is_Some (m !! range) ->
  from_option Acc.count 0 (foldl range_step m l !! range)
  = from_option Acc.count 0 (m !! range)
    + length (List.filter (fun p => String.eqb (range_of p) range) l).
Proof.
  revert m. induction l as [| p l IH]; intros m Hm; cbn [foldl List.filter length].
  - lia.
  - rewrite IH by (unfold range_step; apply lookup_alter_is_Some, Hm).
    unfold range_step. destruct (String.eqb_spec (range_of p) range) as [-> | Hne].
    + rewrite lookup_alter_eq. destruct Hm as [d Hd]. rewrite Hd.
      cbn [fmap option_fmap option_map from_option length].
      rewrite record_position_count. lia.
    + rewrite lookup_alter_ne by exact Hne. lia.
Qed.

Lemma bucketCount_with_winRate (m : gmap string Acc.t) (k : string) :
  bucketCount (with_winRate <$> m) k = from_option Acc.count 0 (m !! k).
Proof.
  unfold bucketCount. rewrite lookup_fmap. destruct (m !! k); reflexivity.
Qed.

End PriceRanges.

(** C5. [calculateWinLossByPriceRange] returns exactly the five fixed
    buckets; every position is counted in one of them, the one that the
    chain of comparisons on its [avgPrice] names, and in no other, so that
    the five [count]s add up to the number of positions, which is
    [totalResolved] for a non-empty input; an [avgPrice] of 0.20, 0.40,
    0.60 or 0.80 falls in the lower of the two bands it separates. *)
Theorem price_ranges_partition (closedPositions : list ClosedPosition) :
  let r := calculateWinLossByPriceRange closedPositions in
  dom r = list_to_set rangeLabels /\
  (forall p, range_of p ∈ rangeLabels) /\
  (forall range, range ∈ rangeLabels ->
     bucketCount r range
     = length (List.filter (fun p => String.eqb (range_of p) range)
                 closedPositions)) /\
  sum_list (bucketCount r <$> rangeLabels) = length closedPositions /\
  (closedPositions <> [] ->
   winLossByPriceRange (calculateWinLossStats (Some closedPositions)) = r /\
   totalResolved (calculateWinLossStats (Some closedPositions))
   = length closedPositions) /\
  (forall p, (orZero (avgPrice p) == 0.20)%Q -> range_of p = "Longshots (0-20¢)") /\
  (forall p, (orZero (avgPrice p) == 0.40)%Q -> range_of p = "Underdogs (20-40¢)") /\
  (forall p, (orZero (avgPrice p) == 0.60)%Q -> range_of p = "Toss-ups (40-60¢)") /\
  (forall p, (orZero (avgPrice p) == 0.80)%Q -> range_of p = "Favorites (60-80¢)").
Proof.
  cbv zeta. unfold calculateWinLossByPriceRange.
  split; [| split; [| split; [| split; [| split]]]].
  - rewrite dom_fmap_L, dom_range_fold. apply dom_ranges0.
  - apply range_of_label.
  - intros range Hrange. rewrite bucketCount_with_winRate.
    assert (is_Some (ranges0 !! range)) as Hsome.
    { apply elem_of_dom. rewrite dom_ranges0. apply elem_of_list_to_set, Hrange. }
    rewrite (count_range_at range closedPositions ranges0 Hsome).
    destruct Hsome as [d Hd]. rewrite Hd, (ranges0_zero range d Hd). reflexivity.
  - erewrite list_fmap_ext; [| intros ? k _; apply bucketCount_with_winRate].
    rewrite count_range_fold by apply dom_ranges0.
    vm_compute (sum_list _). reflexivity.
  - intros Hne. split.
    + apply winLossByPriceRange_nonempty, Hne.
    + apply totalResolved_nonempty, Hne.
  - unfold range_of.
    repeat split; intros p Hp;
      repeat match goal with
             | |- context [Qle_bool ?a ?b] =>
                 first [ rewrite (proj2 (Qle_bool_iff a b)) by lra
                       | rewrite (proj2 (Qle_bool_false a b)) by lra ]
             end; reflexivity.
Qed.

(** C6. The scenario of two closed positions: one win of 50 entered at
    0.15 and one loss of 20 entered at 0.70. *)
Theorem scenario_analysis :
  let r := calculateWinLossStats (Some scenario) in
  totalResolved r = 2 /\ wins r = 1 /\ losses r = 1 /\
  (winRate r == 50)%Q /\ (totalRealizedPnL r == 30)%Q /\
  (exists q, profitFactor r = Finite q /\ (q == 2.5)%Q) /\
  (exists b, winLossByPriceRange r !! "Longshots (0-20¢)" = Some b /\
             Bucket.count b = 1 /\ (Bucket.totalPnl b == 50)%Q) /\
  (exists b, winLossByPriceRange r !! "Favorites (60-80¢)" = Some b /\
             Bucket.count b = 1 /\ (Bucket.totalPnl b == -20)%Q) /\
  (exists b, winLossByPriceRange r !! "Underdogs (20-40¢)" = Some b /\
             Bucket.count b = 0) /\
  (exists b, winLossByPriceRange r !! "Toss-ups (40-60¢)" = Some b /\
             Bucket.count b = 0) /\
  (exists b, winLossByPriceRange r !! "Heavy Favorites (80-100¢)" = Some b /\
             Bucket.count b = 0).
Proof.
  cbv zeta.
  repeat match goal with
         | |- _ /\ _ => split
         | |- exists _, _ => eexists
         end;
    try (vm_compute; reflexivity).
Qed.

(** ** Trade counts by side *)

Lemma length_filter_side (s : string) (trades : list Activity.t) :
  length (List.filter (isSide s) trades)
  = count_occ String.string_dec (map Activity.side trades) s.
Proof.
  induction trades as [| t trades IH]; [reflexivity |].
  cbn [List.filter map count_occ]. unfold isSide at 1.
  destruct (String.string_dec (Activity.side t) s) as [Heq | Hne].
  - rewrite (proj2 (String.eqb_eq _ _) Heq). cbn [length]. now rewrite IH.
  - rewrite (proj2 (String.eqb_neq _ _) Hne). exact IH.
Qed.

(** C8. [buys] and [sells] count the trades whose side is BUY and SELL;
    [buySellRatio] is [buys / sells] rendered with two decimals when there
    is a sell, the infinite marker when there are buys only, and the
    no-ratio marker when there is neither. *)
Theorem buySellRatio_cases (toFixed : Q -> nat -> string) (data : Data.t) :
  let s := calculateStats toFixed data in
  let trades :=
    List.filter (fun a => String.eqb (Activity.type a) "TRADE") (Data.activity data) in
  buys s = count_occ String.string_dec (map Activity.side trades) "BUY" /\
  sells s = count_occ String.string_dec (map Activity.side trades) "SELL" /\
  (0 < sells s -> buySellRatio s = toFixed (num (buys s) / num (sells s))%Q 2) /\
  (sells s = 0 -> 0 < buys s -> buySellRatio s = "∞") /\
  (sells s = 0 -> buys s = 0 -> buySellRatio s = "-").
Proof.
  cbv zeta. unfold calculateStats.
  cbn [buys sells buySellRatio].
  set (trades := List.filter _ (Data.activity data)).
  set (b := length (List.filter (isSide "BUY") trades)).
  set (n := length (List.filter (isSide "SELL") trades)).
  split; [apply length_filter_side |].
  split; [apply length_filter_side |].
  split; [| split].
  - intros Hn. apply Nat.ltb_lt in Hn. now rewrite Hn.
  - intros Hn Hb. rewrite Hn. apply Nat.ltb_lt in Hb. now rewrite Hb.
  - intros Hn Hb. rewrite Hn, Hb. reflexivity.
Qed.

(** ** Timing distributions *)

Section Distributions.








End Distributions.



(** ** Category buckets *)

Section CategoryBuckets.

Variable P : Acc.t -> Prop.
Hypothesis P_zero : P Acc.zero.
Hypothesis P_record : forall p d, P d -> P (record_position p d).

Lemma category_step_inv (m : gmap string Acc.t) (p : ClosedPosition) :
  map_Forall (fun _ => P) m -> map_Forall (fun _ => P) (category_step m p).
Proof using P_zero P_record.
  intros Hm k d. unfold category_step.
  set (c := category_of p).
  destruct (decide (c = k)) as [-> | Hne].
  - rewrite lookup_alter_eq.
    destruct (m !! k) as [d0 |] eqn:E.
    + rewrite E. cbn. intros [= <-]. apply P_record, (Hm k d0 E).
    + rewrite lookup_insert_eq. cbn. intros [= <-]. apply P_record, P_zero.
  - rewrite lookup_alter_ne by exact Hne.
    destruct (m !! c); [| rewrite lookup_insert_ne by exact Hne]; apply Hm.
Qed.

Lemma category_fold_inv (l : list ClosedPosition) (m : gmap string Acc.t) :
  map_Forall (fun _ => P) m ->
  map_Forall (fun _ => P) (foldl category_step m l).
Proof using P_zero P_record.
  revert m. induction l as [| p l IH]; intros m Hm; [exact Hm |].
  cbn [foldl]. apply IH, category_step_inv, Hm.
Qed.

End CategoryBuckets.

Lemma record_position_tally (p : ClosedPosition) (d : Acc.t) :
  Acc.wins d + Acc.losses d <= Acc.count d ->
  Acc.wins (record_position p d) + Acc.losses (record_position p d)
  <= Acc.count (record_position p d).
Proof.
  intros Hd. unfold record_position.
  destruct (Qltb 0 (orZero (realizedPnl p))); [cbn; lia |].
  destruct (Qltb (orZero (realizedPnl p)) 0); cbn; lia.
Qed.

(** C7. Every bucket of [calculateWinLossByCategory] has
    [wins + losses <= count], and its [winRate] is [wins / count * 100]
    when [count > 0] and 0 otherwise, computed from the bucket's own
    fields. *)
Theorem category_bucket_invariant (closedPositions : list ClosedPosition)
    (cat : string) (b : Bucket.t) :
  calculateWinLossByCategory closedPositions !! cat = Some b ->
  Bucket.wins b + Bucket.losses b <= Bucket.count b /\
  Bucket.winRate b =
    (if (0 <? Bucket.count b)%nat
     then num (Bucket.wins b) / num (Bucket.count b) * 100 else 0)%Q.
Proof.
  unfold calculateWinLossByCategory. rewrite lookup_fmap.
  destruct (foldl category_step ∅ closedPositions !! cat) as [d |] eqn:E;
    [| discriminate].
  cbn. intros [= <-]. cbn. split; [| reflexivity].
  revert E.
  apply (category_fold_inv (fun d => Acc.wins d + Acc.losses d <= Acc.count d)).
  - cbn. lia.
  - apply record_position_tally.
  - apply map_Forall_empty.
Qed.

Lemma category_bucket_invariant_witness :
  calculateWinLossByCategory scenario !! "Crypto"
  = Some (Bucket.mk 1 0 50 1 100) /\
  Bucket.wins (Bucket.mk 1 0 50 1 100) + Bucket.losses (Bucket.mk 1 0 50 1 100)
  <= Bucket.count (Bucket.mk 1 0 50 1 100).
Proof.
  split; [vm_compute; reflexivity |].
  apply (category_bucket_invariant scenario "Crypto" (Bucket.mk 1 0 50 1 100)).
  vm_compute. reflexivity.
Defined.

(** ** The extremal positions *)

Section FirstExtremal.

(** [better p best] is the test under which [reduce] replaces its
    accumulator [best] by the element [p]. *)
Variable better : ClosedPosition -> ClosedPosition -> bool.
Hypothesis better_irrefl : forall x, better x x = false.
Hypothesis better_trans :
  forall x y z, better x y = true -> better y z = true -> better x z = true.
Hypothesis better_over :
  forall x y z, better x y = true -> better z y = false -> better x z = true.

Let step (best p : ClosedPosition) : ClosedPosition :=
  if better p best then p else best.

(** [reduce] ends on the first element that no other one beats: all the
    elements before it are beaten by it, none after it beats it. *)
Lemma reduce_first_best (rest seen after : list ClosedPosition)
    (best : ClosedPosition) :
  (forall q, q ∈ seen -> better best q = true) ->
  (forall q, q ∈ after -> better q best = false) ->
  exists l1 l2,
    seen ++ best :: after ++ rest = l1 ++ foldl step best rest :: l2 /\
    (forall q, q ∈ l1 -> better (foldl step best rest) q = true) /\
    (forall q, q ∈ l2 -> better q (foldl step best rest) = false).
Proof using better_trans better_over.
  revert seen after best.
  induction rest as [| p rest IH]; intros seen after best Hseen Hafter.
  - exists seen, after. rewrite app_nil_r. cbn. auto.
  - cbn [foldl]. destruct (better p best) eqn:Hp.
    + assert (step best p = p) as -> by (unfold step; now rewrite Hp).
      destruct (IH (seen ++ best :: after) [] p) as (l1 & l2 & Heq & H1 & H2).
      * intros q Hq. apply elem_of_app in Hq as [Hq | Hq].
        -- eapply better_trans; [exact Hp | apply Hseen, Hq].
        -- apply elem_of_cons in Hq as [-> | Hq]; [exact Hp |].
           eapply better_over; [exact Hp | apply Hafter, Hq].
      * intros q Hq. inversion Hq.
      * exists l1, l2. split; [| auto].
        rewrite <- Heq. cbn [app]. rewrite <- app_assoc. reflexivity.
    + assert (step best p = best) as -> by (unfold step; now rewrite Hp).
      destruct (IH seen (after ++ [p]) best) as (l1 & l2 & Heq & H1 & H2).
      * exact Hseen.
      * intros q Hq. apply elem_of_app in Hq as [Hq | Hq].
        -- apply Hafter, Hq.
        -- apply list_elem_of_singleton in Hq as ->. exact Hp.
      * exists l1, l2. split; [| auto].
        rewrite <- Heq, <- app_assoc. reflexivity.
Qed.

Lemma extremal_None (arr : list ClosedPosition) :
  extremal better arr = None <-> arr = [].
Proof. destruct arr; cbn; split; congruence. Qed.

Lemma extremal_first_best (arr : list ClosedPosition) (p : ClosedPosition) :
  extremal better arr = Some p ->
  exists l1 l2,
    arr = l1 ++ p :: l2 /\
    (forall q, q ∈ l1 -> better p q = true) /\
    (forall q, q ∈ l2 -> better q p = false).
Proof using better_irrefl better_trans better_over.
  destruct arr as [| first rest]; [discriminate |].
  cbn [extremal foldl]. rewrite better_irrefl. intros [= <-].
  destruct (reduce_first_best rest [] [] first) as (l1 & l2 & Heq & H1 & H2).
  - intros q Hq. inversion Hq.
  - intros q Hq. inversion Hq.
  - exists l1, l2. split; [exact Heq | auto].
Qed.

End FirstExtremal.

(** An element of a filtered array sits in the array itself, between the
    elements its neighbours come from. *)
Lemma filter_split {A : Type} (f : A -> bool) (l a1 a2 : list A) (x : A) :
  List.filter f l = a1 ++ x :: a2 ->
  exists l1 l2, l = l1 ++ x :: l2 /\ List.filter f l1 = a1 /\ List.filter f l2 = a2.
Proof.
  revert a1. induction l as [| y l IH]; intros a1 H; cbn in H.
  - destruct a1; discriminate H.
  - destruct (f y) eqn:Hy.
    + destruct a1 as [| z a1]; cbn in H; injection H as -> H.
      * exists [], l. auto.
      * destruct (IH a1 H) as (l1 & l2 & -> & H1 & H2).
        exists (z :: l1), l2. cbn. rewrite Hy, H1. auto.
    + destruct (IH a1 H) as (l1 & l2 & -> & H1 & H2).
      exists (y :: l1), l2. cbn. rewrite Hy. auto.
Qed.

Section BiggestWinLoss.

Local Ltac order_facts :=
  intros;
  repeat match goal with
         | H : Qltb _ _ = true |- _ => apply Qltb_lt in H
         | H : Qltb _ _ = false |- _ => apply Qltb_ge in H
         end;
  first [apply Qltb_lt | apply Qltb_ge]; lra.

Lemma biggest_of_wins (l : list ClosedPosition) (p : ClosedPosition) :
  extremal (fun p max => Qltb (pnl max) (pnl p)) (winsOf l) = Some p ->
  exists before after,
    l = before ++ p :: after /\ (0 < pnl p)%Q /\
    (forall q, q ∈ before -> (0 < pnl q)%Q -> (pnl q < pnl p)%Q) /\
    (forall q, q ∈ after -> (0 < pnl q)%Q -> (pnl q <= pnl p)%Q).
Proof.
  intros H.
  apply extremal_first_best in H as (a1 & a2 & Hw & H1 & H2);
    [| order_facts ..].
  pose proof (winsOf_pos l) as Hpos. rewrite Hw in Hpos.
  apply Forall_app in Hpos as [_ Hpos]. apply Forall_cons in Hpos as [Hp _].
  apply filter_split in Hw as (before & after & -> & <- & <-).
  exists before, after. split; [reflexivity |]. split; [exact Hp |].
  split; intros q Hq Hwin.
  - apply Qltb_lt, H1, list_elem_of_In, filter_In.
    split; [apply list_elem_of_In, Hq | apply Qltb_lt, Hwin].
  - apply Qltb_ge, H2, list_elem_of_In, filter_In.
    split; [apply list_elem_of_In, Hq | apply Qltb_lt, Hwin].
Qed.

Lemma biggest_of_losses (l : list ClosedPosition) (p : ClosedPosition) :
  extremal (fun p min => Qltb (pnl p) (pnl min)) (lossesOf l) = Some p ->
  exists before after,
    l = before ++ p :: after /\ (pnl p < 0)%Q /\
    (forall q, q ∈ before -> (pnl q < 0)%Q -> (pnl p < pnl q)%Q) /\
    (forall q, q ∈ after -> (pnl q < 0)%Q -> (pnl p <= pnl q)%Q).
Proof.
  intros H.
  apply extremal_first_best in H as (a1 & a2 & Hw & H1 & H2);
    [| order_facts ..].
  pose proof (lossesOf_neg l) as Hneg. rewrite Hw in Hneg.
  apply Forall_app in Hneg as [_ Hneg]. apply Forall_cons in Hneg as [Hp _].
  apply filter_split in Hw as (before & after & -> & <- & <-).
  exists before, after. split; [reflexivity |]. split; [exact Hp |].
  split; intros q Hq Hloss.
  - apply Qltb_lt, H1, list_elem_of_In, filter_In.
    split; [apply list_elem_of_In, Hq | apply Qltb_lt, Hloss].
  - apply Qltb_ge, H2, list_elem_of_In, filter_In.
    split; [apply list_elem_of_In, Hq | apply Qltb_lt, Hloss].
Qed.

End BiggestWinLoss.

(** C9. [biggestWin] is null exactly when no position is a win, and
    otherwise it is the first position of the input, in input order, whose
    [realizedPnl] is the largest among the wins: every win before it has a
    strictly smaller one, no win after it a larger one.  [biggestLoss] is
    the same for the smallest [realizedPnl] among the losses. *)
Theorem biggest_win_and_loss (closedPositions : option (list ClosedPosition)) :
  let cps := default [] closedPositions in
  let r := calculateWinLossStats closedPositions in
  (biggestWin r = None <-> winsOf cps = []) /\
  (biggestLoss r = None <-> lossesOf cps = []) /\
  (forall p, biggestWin r = Some p ->
     exists before after,
       cps = before ++ p :: after /\ (0 < pnl p)%Q /\
       (forall q, q ∈ before -> (0 < pnl q)%Q -> (pnl q < pnl p)%Q) /\
       (forall q, q ∈ after -> (0 < pnl q)%Q -> (pnl q <= pnl p)%Q)) /\
  (forall p, biggestLoss r = Some p ->
     exists before after,
       cps = before ++ p :: after /\ (pnl p < 0)%Q /\
       (forall q, q ∈ before -> (pnl q < 0)%Q -> (pnl p < pnl q)%Q) /\
       (forall q, q ∈ after -> (pnl q < 0)%Q -> (pnl p <= pnl q)%Q)).
Proof.
  cbv zeta.
  destruct closedPositions as [[| p0 l] |];
    try (cbn; repeat split; intros; discriminate).
  set (cps := p0 :: l). assert (cps <> []) as Hne by discriminate.
  change (default [] (Some cps)) with cps.
  rewrite biggestWin_nonempty, biggestLoss_nonempty by assumption.
  split; [apply extremal_None |].
  split; [apply extremal_None |].
  split; intros p Hp.
  - apply biggest_of_wins, Hp.
  - apply biggest_of_losses, Hp.
Qed.

(** ** Evaluations on small inputs *)

(** A position entered at exactly 0.20 is a longshot. *)
Example boundary_price_is_longshot :
  map_to_list
    (Bucket.count <$>
     filter (fun kb => 0 < Bucket.count kb.2)
       (calculateWinLossByPriceRange
          [ {| realizedPnl := Some 5%Q; avgPrice := Some 0.20%Q; title := None |} ]))
  = [("Longshots (0-20¢)", 1)].
Proof. vm_compute. reflexivity. Qed.

(** Of two wins of the same amount the earlier one is [biggestWin]; a
    position without [realizedPnl] is a breakeven. *)
Example equal_wins_keep_first :
  let first := {| realizedPnl := Some 50%Q; avgPrice := None; title := Some "first" |} in
  let second := {| realizedPnl := Some 50%Q; avgPrice := None; title := Some "second" |} in
  let blank := {| realizedPnl := None; avgPrice := None; title := None |} in
  let r := calculateWinLossStats (Some [blank; first; second]) in
  biggestWin r = Some first /\ biggestLoss r = None /\ breakeven r = Some 1 /\
  profitFactor r = Infinity.
Proof. vm_compute. repeat split. Qed.

(** 14 November 2023, 22:13:20 UTC, was a Tuesday. *)
Example known_instant :
  let trade := Activity.mk "TRADE" "BUY" 1700000000 None 0.5 "0xabc" None in
  getHourDistribution [trade] !! 22 = Some 1 /\
  getDayDistribution [trade] !! "Tuesday" = Some 1.
Proof. vm_compute. repeat split. Qed.

(** A record whose time is beyond the last valid Date is counted in no
    hour and under no weekday. *)
Example invalid_date_is_not_counted :
  let trade := Activity.mk "TRADE" "BUY" 10000000000000 None 0.5 "0xabc" None in
  getHourDistribution [trade] = replicate 24 0 /\
  getDayDistribution [trade] = days0.
Proof. vm_compute. repeat split. Qed.

(** Buys without a sell give the infinite marker, whatever [toFixed] is;
    records that are not trades are not counted. *)
Example buys_only (toFixed : Q -> nat -> string) :
  let buy := Activity.mk "TRADE" "BUY" 1700000000 (Some 10%Q) 0.5 "0xabc" None in
  let reward := Activity.mk "REWARD" "" 1700000000 None 0 "" None in
  let s := calculateStats toFixed (Data.mk [buy; reward; buy] [] None) in
  totalTrades s = 2 /\ buys s = 2 /\ sells s = 0 /\ buySellRatio s = "∞".
Proof. vm_compute. repeat split. Qed.


(** * Further properties *)

(** ** Sums of keyed counters *)

Section KeyedSums.

Context {V : Type}.

Lemma total_alter_add (g : V -> nat) (keys : list string) (k : string)
    (f : V -> V) (m : gmap string V) (delta : nat) :
  NoDup keys -> k ∈ keys -> is_Some (m !! k) ->
  (forall x, g (f x) = g x + delta) ->
  sum_list ((fun j => from_option g 0 (alter f k m !! j)) <$> keys)
  = sum_list ((fun j => from_option g 0 (m !! j)) <$> keys) + delta.
Proof.
  intros Hnd Hin [x Hx] Hf.
  induction Hnd as [| a keys Ha Hnd IH]; [inversion Hin |].
  rewrite !fmap_cons. cbn [sum_list].
  destruct (decide (k = a)) as [-> | Hne].
  - rewrite lookup_alter_eq, Hx. cbn [fmap option_fmap option_map from_option].
    rewrite Hf, (total_alter_other g keys a f m Ha). unfold id. lia.
  - rewrite lookup_alter_ne by exact Hne.
    apply elem_of_cons in Hin as [Heq | Hin]; [congruence |].
    rewrite (IH Hin). lia.
Qed.

Lemma total_insert_fresh (g : V -> nat) (keys : list string) (k : string)
    (z : V) (m : gmap string V) :
  m !! k = None -> g z = 0 ->
  sum_list ((fun j => from_option g 0 (<[k := z]> m !! j)) <$> keys)
  = sum_list ((fun j => from_option g 0 (m !! j)) <$> keys).
Proof.
  intros Hk Hz. induction keys as [| a keys IH]; [reflexivity |].
  rewrite !fmap_cons. cbn [sum_list]. rewrite IH. f_equal.
  destruct (decide (k = a)) as [-> | Hne].
  - rewrite lookup_insert_eq, Hk. exact Hz.
  - rewrite lookup_insert_ne by exact Hne. reflexivity.
Qed.

Lemma sumQ_cons (x : Q) (l : list Q) : sumQ (x :: l) = (x + sumQ l)%Q.
Proof. reflexivity. Qed.

End KeyedSums.

(** ** What one recorded position adds to its bucket *)

Section RecordPosition.

Lemma record_position_wins (p : ClosedPosition) (d : Acc.t) :
  Acc.wins (record_position p d) = Acc.wins d + winUnit p.
Proof.
  unfold record_position, winUnit, pnl.
  destruct (Qltb 0 (orZero (realizedPnl p))); [cbn; lia |].
  destruct (Qltb (orZero (realizedPnl p)) 0); cbn; lia.
Qed.

Lemma record_position_losses (p : ClosedPosition) (d : Acc.t) :
  Acc.losses (record_position p d) = Acc.losses d + lossUnit p.
Proof.
  unfold record_position, lossUnit, pnl.
  destruct (sign_cases (orZero (realizedPnl p)))
    as [(-> & -> & _) | [(-> & -> & _) | (-> & -> & _)]]; cbn; lia.
Qed.

Lemma record_position_totalPnl (p : ClosedPosition) (d : Acc.t) :
  Acc.totalPnl (record_position p d) = (Acc.totalPnl d + pnl p)%Q.
Proof.
  unfold record_position, pnl.
  destruct (Qltb 0 (orZero (realizedPnl p))); [reflexivity |].
  destruct (Qltb (orZero (realizedPnl p)) 0); reflexivity.
Qed.

Lemma length_filter_units (f : ClosedPosition -> bool) (l : list ClosedPosition) :
  length (List.filter f l) = sum_list ((fun p => if f p then 1 else 0) <$> l).
Proof.
  induction l as [| p l IH]; [reflexivity |].
  rewrite fmap_cons. cbn [List.filter sum_list].
  destruct (f p); cbn [length]; rewrite IH; reflexivity.
Qed.

Lemma foldl_pnl_shift (l : list ClosedPosition) (a : Q) :
  (foldl (fun sum p => sum + pnl p)%Q a l == a + sumQ (pnl <$> l))%Q.
Proof.
  revert a. induction l as [| p l IH]; intros a.
  - cbn. ring.
  - cbn [foldl]. rewrite IH, fmap_cons, sumQ_cons. ring.
Qed.

Lemma sumPnl_sumQ (l : list ClosedPosition) : (sumPnl l == sumQ (pnl <$> l))%Q.
Proof. unfold sumPnl. rewrite foldl_pnl_shift. ring. Qed.

End RecordPosition.

(** ** The price-range buckets against the scalar statistics *)

Section PriceRangeTotals.

Lemma range_fold_units (g : Acc.t -> nat) (w : ClosedPosition -> nat) :
  (forall p d, g (record_position p d) = g d + w p) ->
  forall (l : list ClosedPosition) (m : gmap string Acc.t),
    dom m = list_to_set rangeLabels ->
    sum_list ((fun k => from_option g 0 (foldl range_step m l !! k)) <$> rangeLabels)
    = sum_list ((fun k => from_option g 0 (m !! k)) <$> rangeLabels)
      + sum_list (w <$> l).
Proof.
  intros Hg l. induction l as [| p l IH]; intros m Hdom.
  - cbn. lia.
  - cbn [foldl]. rewrite (fmap_cons w p l). cbn [sum_list]. rewrite IH.
    + unfold range_step.
      rewrite (total_alter_add g rangeLabels _ _ _ (w p)).
      * unfold id. lia.
      * apply rangeLabels_NoDup.
      * apply range_of_label.
      * apply elem_of_dom. rewrite Hdom. apply elem_of_list_to_set, range_of_label.
      * apply Hg.
    + unfold range_step. rewrite dom_alter_L. exact Hdom.
Qed.

Lemma bucket_reading (g : Acc.t -> nat) (h : Bucket.t -> nat)
    (m : gmap string Acc.t) (k : string) :
  (forall d, h (with_winRate d) = g d) ->
  from_option h 0 ((with_winRate <$> m) !! k) = from_option g 0 (m !! k).
Proof.
  intros Hgh. rewrite lookup_fmap. destruct (m !! k); cbn; [apply Hgh | reflexivity].
Qed.

End PriceRangeTotals.

(** X1. For a non-empty input the five price-range buckets add up to the
    scalar statistics: their [wins] to [wins] and their [losses] to
    [losses], so that every win and every loss is tallied in exactly one
    bucket. *)
Theorem price_ranges_add_up (closedPositions : list ClosedPosition) :
  closedPositions <> [] ->
  let r := calculateWinLossStats (Some closedPositions) in
  sum_list (bucketWins (winLossByPriceRange r) <$> rangeLabels) = wins r /\
  sum_list (bucketLosses (winLossByPriceRange r) <$> rangeLabels) = losses r.
Proof.
  intros Hne r. subst r.
  rewrite winLossByPriceRange_nonempty, wins_nonempty, losses_nonempty
    by assumption.
  unfold calculateWinLossByPriceRange, bucketWins, bucketLosses.
  split.
  - erewrite list_fmap_ext;
      [| intros ? k _; apply (bucket_reading Acc.wins Bucket.wins); reflexivity].
    rewrite (range_fold_units Acc.wins winUnit record_position_wins)
      by apply dom_ranges0.
    unfold winsOf. rewrite length_filter_units. reflexivity.
  - erewrite list_fmap_ext;
      [| intros ? k _; apply (bucket_reading Acc.losses Bucket.losses); reflexivity].
    rewrite (range_fold_units Acc.losses lossUnit record_position_losses)
      by apply dom_ranges0.
    unfold lossesOf. rewrite length_filter_units. reflexivity.
Qed.

Lemma price_ranges_add_up_witness :
  scenario <> [] /\
  sum_list (bucketWins (winLossByPriceRange (calculateWinLossStats (Some scenario)))
            <$> rangeLabels)
  = wins (calculateWinLossStats (Some scenario)).
Proof.
  split; [discriminate |].
  apply (price_ranges_add_up scenario). discriminate.
Defined.

(** ** Bounds on the buckets *)

Section BucketBounds.

Lemma rate_bounds (wins count : nat) :
  wins <= count -> (0 <= rate wins count <= 100)%Q.
Proof.
  intros Hle. unfold rate. destruct (0 <? count)%nat eqn:Hc.
  - apply percent_bounds; [exact Hle | apply Nat.ltb_lt, Hc].
  - lra.
Qed.

Lemma range_fold_inv (P : Acc.t -> Prop) :
  (forall p d, P d -> P (record_position p d)) ->
  forall (l : list ClosedPosition) (m : gmap string Acc.t),
    map_Forall (fun _ => P) m -> map_Forall (fun _ => P) (foldl range_step m l).
Proof.
  intros HP l. induction l as [| p l IH]; intros m Hm; [exact Hm |].
  cbn [foldl]. apply IH. intros k d. unfold range_step.
  destruct (decide (range_of p = k)) as [-> | Hne].
  - rewrite lookup_alter_eq. destruct (m !! k) as [d0 |] eqn:E; cbn; [| discriminate].
    intros [= <-]. apply HP, (Hm k d0 E).
  - rewrite lookup_alter_ne by exact Hne. apply Hm.
Qed.

Lemma tallied_zero : tallied Acc.zero.
Proof. split; [cbn; lia | reflexivity]. Qed.

Lemma tallied_record (p : ClosedPosition) (d : Acc.t) :
  tallied d -> tallied (record_position p d).
Proof.
  intros [Hd _]. split.
  - apply record_position_tally, Hd.
  - rewrite record_position_count. discriminate.
Qed.

End BucketBounds.

(** X2. Every price-range bucket has [wins + losses <= count] and a
    [winRate] within [0,100]; a bucket in which no position fell has all
    its fields 0. *)
Theorem price_bucket_bounds (closedPositions : list ClosedPosition)
    (range : string) (b : Bucket.t) :
  calculateWinLossByPriceRange closedPositions !! range = Some b ->
  Bucket.wins b + Bucket.losses b <= Bucket.count b /\
  (0 <= Bucket.winRate b <= 100)%Q /\
  (Bucket.count b = 0 ->
   Bucket.wins b = 0 /\ Bucket.losses b = 0 /\
   Bucket.totalPnl b = 0%Q /\ Bucket.winRate b = 0%Q).
Proof.
  unfold calculateWinLossByPriceRange. rewrite lookup_fmap.
  destruct (foldl range_step ranges0 closedPositions !! range) as [d |] eqn:E;
    [| discriminate].
  cbn. intros [= <-].
  assert (tallied d) as [Hd Hz].
  { revert E. apply (range_fold_inv tallied tallied_record).
    intros k d0 Hk. rewrite (ranges0_zero k d0 Hk). apply tallied_zero. }
  cbn. split; [exact Hd |]. split; [apply rate_bounds; lia |].
  intros Hc. rewrite (Hz Hc). repeat split.
Qed.

Lemma price_bucket_bounds_witness :
  calculateWinLossByPriceRange scenario !! "Longshots (0-20¢)"
  = Some (Bucket.mk 1 0 50 1 100) /\
  (0 <= Bucket.winRate (Bucket.mk 1 0 50 1 100) <= 100)%Q.
Proof.
  split; [vm_compute; reflexivity |].
  apply (price_bucket_bounds scenario "Longshots (0-20¢)" (Bucket.mk 1 0 50 1 100)).
  vm_compute. reflexivity.
Defined.

(** ** Category buckets against the scalar statistics *)

Section CategoryTotals.

Lemma first_match_names (entries : list (string * list string))
    (title fallback : string) :
  first_match entries title fallback ∈ entries.*1 ++ [fallback].
Proof.
  induction entries as [| [cat words] entries IH]; cbn.
  - apply list_elem_of_singleton. reflexivity.
  - destruct (existsb (fun word => includes title word) words).
    + apply elem_of_cons. left. reflexivity.
    + apply elem_of_cons. right. exact IH.
Qed.

Lemma category_of_name (p : ClosedPosition) : category_of p ∈ categoryNames.
Proof. apply first_match_names. Qed.

Lemma categoryNames_NoDup : NoDup categoryNames.
Proof. apply (bool_decide_unpack _). vm_compute. reflexivity. Qed.

Lemma dom_category_fold (l : list ClosedPosition) (m : gmap string Acc.t) :
  dom m ⊆ list_to_set categoryNames ->
  dom (foldl category_step m l) ⊆ (list_to_set categoryNames : gset string).
Proof.
  revert m. induction l as [| p l IH]; intros m Hm; [exact Hm |].
  cbn [foldl]. apply IH. unfold category_step. rewrite dom_alter.
  pose proof (category_of_name p) as Hp.
  destruct (m !! category_of p); [exact Hm |].
  rewrite dom_insert. apply union_least; [| exact Hm].
  apply singleton_subseteq_l, elem_of_list_to_set, Hp.
Qed.

Lemma category_fold_units (g : Acc.t -> nat) (w : ClosedPosition -> nat) :
  g Acc.zero = 0 ->
  (forall p d, g (record_position p d) = g d + w p) ->
  forall (l : list ClosedPosition) (m : gmap string Acc.t),
    sum_list ((fun k => from_option g 0 (foldl category_step m l !! k))
              <$> categoryNames)
    = sum_list ((fun k => from_option g 0 (m !! k)) <$> categoryNames)
      + sum_list (w <$> l).
Proof.
  intros Hz Hg l. induction l as [| p l IH]; intros m.
  - cbn. lia.
  - cbn [foldl]. rewrite (fmap_cons w p l). cbn [sum_list]. rewrite IH.
    unfold category_step.
    rewrite (total_alter_add g categoryNames _ _ _ (w p)).
    + destruct (m !! category_of p) eqn:E.
      * unfold id. lia.
      * rewrite (total_insert_fresh g categoryNames _ _ _ E Hz). unfold id. lia.
    + apply categoryNames_NoDup.
    + apply category_of_name.
    + destruct (m !! category_of p) eqn:E; [rewrite E; eauto |].
      rewrite lookup_insert_eq. eauto.
    + apply Hg.
Qed.

(** A property that every freshly recorded bucket has holds of all the
    buckets the pass creates. *)
Lemma category_fold_recorded (P : Acc.t -> Prop) :
  (forall p d, P (record_position p d)) ->
  forall (l : list ClosedPosition) (m : gmap string Acc.t),
    map_Forall (fun _ => P) m ->
    map_Forall (fun _ => P) (foldl category_step m l).
Proof.
  intros HP l. induction l as [| p l IH]; intros m Hm; [exact Hm |].
  cbn [foldl]. apply IH. intros k d. unfold category_step.
  set (c := category_of p).
  destruct (decide (c = k)) as [-> | Hne].
  - rewrite lookup_alter_eq.
    destruct (m !! k) as [d0 |] eqn:E.
    + rewrite E. cbn. intros [= <-]. apply HP.
    + rewrite lookup_insert_eq. cbn. intros [= <-]. apply HP.
  - rewrite lookup_alter_ne by exact Hne.
    destruct (m !! c); [| rewrite lookup_insert_ne by exact Hne]; apply Hm.
Qed.

End CategoryTotals.

(** X3. The category buckets are keyed by the seven category names only,
    each of them holds at least one position, and for a non-empty input
    their [count]s, [wins] and [losses] add up to [totalResolved], [wins]
    and [losses]. *)
Theorem category_buckets_add_up (closedPositions : list ClosedPosition) :
  closedPositions <> [] ->
  let r := calculateWinLossStats (Some closedPositions) in
  let m := winLossByCategory r in
  dom m ⊆ (list_to_set categoryNames : gset string) /\
  (forall cat b, m !! cat = Some b -> 1 <= Bucket.count b) /\
  sum_list (bucketCount m <$> categoryNames) = totalResolved r /\
  sum_list (bucketWins m <$> categoryNames) = wins r /\
  sum_list (bucketLosses m <$> categoryNames) = losses r.
Proof.
  intros Hne r m. subst r m.
  rewrite winLossByCategory_nonempty, totalResolved_nonempty, wins_nonempty,
    losses_nonempty by assumption.
  unfold calculateWinLossByCategory, bucketCount, bucketWins, bucketLosses.
  split; [| split; [| split; [| split]]].
  - rewrite dom_fmap. apply dom_category_fold. rewrite dom_empty.
    apply empty_subseteq.
  - intros cat b. rewrite lookup_fmap.
    destruct (foldl category_step ∅ closedPositions !! cat) as [d |] eqn:E;
      [| discriminate].
    cbn. intros [= <-]. cbn. revert E.
    apply (category_fold_recorded (fun d => 1 <= Acc.count d)).
    + intros p d0. rewrite record_position_count. lia.
    + apply map_Forall_empty.
  - erewrite list_fmap_ext;
      [| intros ? k _; apply (bucket_reading Acc.count Bucket.count); reflexivity].
    rewrite (category_fold_units Acc.count (fun _ => 1) eq_refl).
    + change (sum_list _ + ?x) with x.
      clear Hne. induction closedPositions as [| p l IH]; [reflexivity |].
      rewrite fmap_cons. cbn [sum_list length]. rewrite IH. reflexivity.
    + intros p d. rewrite record_position_count. lia.
  - erewrite list_fmap_ext;
      [| intros ? k _; apply (bucket_reading Acc.wins Bucket.wins); reflexivity].
    rewrite (category_fold_units Acc.wins winUnit eq_refl record_position_wins).
    unfold winsOf. rewrite length_filter_units. reflexivity.
  - erewrite list_fmap_ext;
      [| intros ? k _; apply (bucket_reading Acc.losses Bucket.losses); reflexivity].
    rewrite (category_fold_units Acc.losses lossUnit eq_refl record_position_losses).
    unfold lossesOf. rewrite length_filter_units. reflexivity.
Qed.

Lemma category_buckets_add_up_witness :
  scenario <> [] /\
  sum_list (bucketCount (winLossByCategory (calculateWinLossStats (Some scenario)))
            <$> categoryNames)
  = totalResolved (calculateWinLossStats (Some scenario)).
Proof.
  split; [discriminate |].
  apply (category_buckets_add_up scenario). discriminate.
Defined.

(** ** Amounts: sums, averages and extremes *)

Section Amounts.

Lemma num_S (n : nat) : (num (S n) == num n + 1)%Q.
Proof.
  unfold num. rewrite Nat2Z.inj_succ, <- Z.add_1_r, inject_Z_plus. reflexivity.
Qed.

Lemma sumQ_split (l : list ClosedPosition) :
  (sumQ (pnl <$> l)
   == sumQ (pnl <$> winsOf l) + sumQ (pnl <$> lossesOf l))%Q.
Proof.
  unfold winsOf, lossesOf. induction l as [| p l IH].
  - cbn. ring.
  - rewrite (fmap_cons pnl p l), sumQ_cons, IH. cbn [List.filter].
    destruct (sign_cases (pnl p)) as [(-> & -> & _) | [(-> & -> & _) | (-> & -> & H0)]].
    + rewrite fmap_cons, sumQ_cons. ring.
    + rewrite fmap_cons, sumQ_cons. ring.
    + apply Qeq_bool_iff in H0. rewrite H0. ring.
Qed.

Lemma sumQ_bound (M : Q) (l : list ClosedPosition) :
  Forall (fun q => (pnl q <= M)%Q) l ->
  (sumQ (pnl <$> l) <= num (length l) * M)%Q.
Proof.
  induction 1 as [| q l Hq _ IH].
  - change (0 <= 0 * M)%Q. lra.
  - rewrite fmap_cons, sumQ_cons. cbn [length]. rewrite num_S.
    assert ((num (length l) + 1) * M == num (length l) * M + M)%Q as ->
      by ring.
    lra.
Qed.

Lemma sumQ_lower (M : Q) (l : list ClosedPosition) :
  Forall (fun q => (M <= pnl q)%Q) l ->
  (num (length l) * M <= sumQ (pnl <$> l))%Q.
Proof.
  induction 1 as [| q l Hq _ IH].
  - change (0 * M <= 0)%Q. lra.
  - rewrite fmap_cons, sumQ_cons. cbn [length]. rewrite num_S.
    assert ((num (length l) + 1) * M == num (length l) * M + M)%Q as ->
      by ring.
    lra.
Qed.

Lemma sumQ_pos (l : list ClosedPosition) :
  Forall (fun q => (0 < pnl q)%Q) l -> l <> [] -> (0 < sumQ (pnl <$> l))%Q.
Proof.
  intros Hl Hne. destruct Hl as [| q l Hq Hl]; [congruence |].
  rewrite fmap_cons, sumQ_cons.
  assert (num (length l) * 0 <= sumQ (pnl <$> l))%Q as H.
  { apply sumQ_lower. eapply Forall_impl; [exact Hl |]. cbn. intros; lra. }
  lra.
Qed.

Lemma sumQ_neg (l : list ClosedPosition) :
  Forall (fun q => (pnl q < 0)%Q) l -> l <> [] -> (sumQ (pnl <$> l) < 0)%Q.
Proof.
  intros Hl Hne. destruct Hl as [| q l Hq Hl]; [congruence |].
  rewrite fmap_cons, sumQ_cons.
  assert (sumQ (pnl <$> l) <= num (length l) * 0)%Q as H.
  { apply sumQ_bound. eapply Forall_impl; [exact Hl |]. cbn. intros; lra. }
  lra.
Qed.

(** The two amounts of a non-empty analysis, as signed sums. *)
Lemma win_amount (l : list ClosedPosition) :
  (0 <= sumPnl (winsOf l))%Q /\
  ((sumPnl (winsOf l) == 0)%Q <-> winsOf l = []).
Proof.
  rewrite sumPnl_sumQ. destruct (winsOf l) as [| q w] eqn:E.
  - cbn. split; [lra | split; [reflexivity | intros _; reflexivity]].
  - assert (0 < sumQ (pnl <$> q :: w))%Q as H.
    { apply sumQ_pos; [| discriminate]. rewrite <- E. apply winsOf_pos. }
    split; [lra | split; [intros H0; exfalso; lra | discriminate]].
Qed.

Lemma loss_amount (l : list ClosedPosition) :
  (Qabs (sumPnl (lossesOf l)) == - sumPnl (lossesOf l))%Q /\
  ((Qabs (sumPnl (lossesOf l)) == 0)%Q <-> lossesOf l = []).
Proof.
  assert (sumPnl (lossesOf l) <= 0)%Q as Hle.
  { rewrite sumPnl_sumQ. destruct (lossesOf l) as [| q w] eqn:E; [cbn; lra |].
    apply Qlt_le_weak, sumQ_neg; [| discriminate]. rewrite <- E. apply lossesOf_neg. }
  split; [apply Qabs_neg, Hle |].
  rewrite (Qabs_neg _ Hle), sumPnl_sumQ.
  destruct (lossesOf l) as [| q w] eqn:E.
  - cbn. split; [reflexivity | intros _; reflexivity].
  - assert (sumQ (pnl <$> q :: w) < 0)%Q as H.
    { apply sumQ_neg; [| discriminate]. rewrite <- E. apply lossesOf_neg. }
    split; [intros H0; exfalso; lra | discriminate].
Qed.

End Amounts.

(** The amounts of an analysis against its counts. *)
Lemma amounts_of_analysis (closedPositions : option (list ClosedPosition)) :
  let r := calculateWinLossStats closedPositions in
  let W := orZero (totalWinAmount r) in
  let L := orZero (totalLossAmount r) in
  (totalRealizedPnL r == W - L)%Q /\
  (0 <= W)%Q /\ (0 <= L)%Q /\
  ((W == 0)%Q <-> wins r = 0) /\
  ((L == 0)%Q <-> losses r = 0).
Proof.
  cbv zeta.
  destruct closedPositions as [[| p l] |];
    try (cbn; repeat split; intros; first [lra | reflexivity]).
  set (cps := p :: l). assert (cps <> []) as Hne by discriminate.
  rewrite totalWinAmount_nonempty, totalLossAmount_nonempty, wins_nonempty,
    losses_nonempty by assumption.
  assert (totalRealizedPnL (calculateWinLossStats (Some cps)) = sumPnl cps) as ->
    by reflexivity.
  cbn [orZero from_option id]. unfold id.
  destruct (win_amount cps) as [HW0 HWz].
  destruct (loss_amount cps) as [HL HLz].
  split; [| split; [| split; [| split]]].
  - rewrite HL, !sumPnl_sumQ, (sumQ_split cps). ring.
  - exact HW0.
  - apply Qabs_nonneg.
  - rewrite HWz. split; [intros ->; reflexivity | apply length_zero_iff_nil].
  - rewrite HLz. split; [intros ->; reflexivity | apply length_zero_iff_nil].
Qed.

(** The two averages and the expectancy as the guarded quotients of the
    source. *)
Lemma averages_of_analysis (closedPositions : option (list ClosedPosition)) :
  let r := calculateWinLossStats closedPositions in
  avgWinAmount r
  = (if (0 <? wins r)%nat then (orZero (totalWinAmount r) / num (wins r))%Q
     else 0%Q) /\
  avgLossAmount r
  = (if (0 <? losses r)%nat then (orZero (totalLossAmount r) / num (losses r))%Q
     else 0%Q) /\
  orZero (expectancy r)
  = (if (0 <? totalResolved r)%nat
     then (totalRealizedPnL r / num (totalResolved r))%Q else 0%Q).
Proof.
  destruct closedPositions as [[| p l] |]; repeat split.
Qed.

(** X4. For every input the two amounts are never negative and each is 0
    exactly when its count, [wins] or [losses], is 0 (both amounts are
    read as 0 where the result has no such field).  Without a loss
    [totalRealizedPnL] is [totalWinAmount], and without a win it is
    [totalLossAmount] negated: breakeven positions add nothing to a
    sum. *)
Theorem amounts_follow_counts (closedPositions : option (list ClosedPosition)) :
  let r := calculateWinLossStats closedPositions in
  let W := orZero (totalWinAmount r) in
  let L := orZero (totalLossAmount r) in
  (0 <= W)%Q /\ (0 <= L)%Q /\
  ((W == 0)%Q <-> wins r = 0) /\
  ((L == 0)%Q <-> losses r = 0) /\
  (losses r = 0 -> (totalRealizedPnL r == W)%Q /\ (0 <= totalRealizedPnL r)%Q) /\
  (wins r = 0 -> (totalRealizedPnL r == - L)%Q /\ (totalRealizedPnL r <= 0)%Q).
Proof.
  cbv zeta.
  destruct (amounts_of_analysis closedPositions) as (Hsplit & HW & HL & HWz & HLz).
  cbv zeta in *.
  split; [exact HW |]. split; [exact HL |].
  split; [exact HWz |]. split; [exact HLz |].
  split; intros H0.
  - apply HLz in H0. split; lra.
  - apply HWz in H0. split; lra.
Qed.

(** X5. The averages are guarded quotients: [avgWinAmount] lies between
    0 and [totalWinAmount] and is 0 exactly when there is no win,
    [avgLossAmount] lies between 0 and [totalLossAmount] and is 0 exactly
    when there is no loss, and [expectancy] (0 where the result has no
    such field) never has the sign opposite to [totalRealizedPnL]; no
    division by zero is hidden in them. *)
Theorem averages_guarded (closedPositions : option (list ClosedPosition)) :
  let r := calculateWinLossStats closedPositions in
  (0 <= avgWinAmount r <= orZero (totalWinAmount r))%Q /\
  (0 <= avgLossAmount r <= orZero (totalLossAmount r))%Q /\
  ((avgWinAmount r == 0)%Q <-> wins r = 0) /\
  ((avgLossAmount r == 0)%Q <-> losses r = 0) /\
  ((0 <= totalRealizedPnL r)%Q -> (0 <= orZero (expectancy r))%Q) /\
  ((totalRealizedPnL r <= 0)%Q -> (orZero (expectancy r) <= 0)%Q).
Proof.
  cbv zeta.
  destruct (amounts_of_analysis closedPositions) as (_ & HW & HL & HWz & HLz).
  destruct (averages_of_analysis closedPositions) as (-> & -> & ->).
  cbv zeta in *.
  set (r := calculateWinLossStats closedPositions) in *.
  assert (forall (total : Q) (n : nat),
            (0 <= total)%Q -> ((total == 0)%Q <-> n = 0) ->
            let avg := if (0 <? n)%nat then (total / num n)%Q else 0%Q in
            (0 <= avg <= total)%Q /\ ((avg == 0)%Q <-> n = 0)) as Havg.
  { intros total n Ht Hz. cbv zeta. destruct (0 <? n)%nat eqn:E.
    - apply Nat.ltb_lt in E. pose proof (num_pos n E) as Hn.
      assert (1 <= num n)%Q as Hn1.
      { change 1%Q with (num 1). apply num_le. lia. }
      assert (0 < total)%Q as Htp.
      { destruct (Qlt_le_dec 0 total) as [H | H]; [exact H |].
        assert (total == 0)%Q as H0 by lra. apply Hz in H0. lia. }
      assert (0 < total / num n)%Q as Hq
        by (apply Qlt_shift_div_l; [exact Hn | lra]).
      split; [split; [lra |] | split; [intros H0; exfalso; lra | lia]].
      apply Qle_shift_div_r; [exact Hn |]. nra.
    - apply Nat.ltb_ge in E. assert (n = 0) as -> by lia.
      split; [split; [lra | exact Ht] | split; reflexivity]. }
  destruct (Havg _ (wins r) HW HWz) as [Hw1 Hw2].
  destruct (Havg _ (losses r) HL HLz) as [Hl1 Hl2].
  split; [exact Hw1 |]. split; [exact Hl1 |].
  split; [exact Hw2 |]. split; [exact Hl2 |].
  destruct (0 <? totalResolved r)%nat eqn:E.
  - apply Nat.ltb_lt, num_pos in E. split; intros Ht.
    + apply Qle_shift_div_l; [exact E | lra].
    + apply Qle_shift_div_r; [exact E | lra].
  - split; intros _; lra.
Qed.

Section Extremes.

(** A sum of amounts of one sign reaches each of them. *)
Lemma sumQ_reaches (l : list ClosedPosition) (p : ClosedPosition) :
  Forall (fun q => (0 <= pnl q)%Q) l -> p ∈ l -> (pnl p <= sumQ (pnl <$> l))%Q.
Proof.
  intros Hl Hp. induction Hl as [| q l Hq Hl IH]; [inversion Hp |].
  rewrite fmap_cons, sumQ_cons.
  assert (0 <= sumQ (pnl <$> l))%Q as Hsum.
  { clear IH Hp. induction Hl as [| x l Hx _ IH]; [cbn; lra |].
    rewrite fmap_cons, sumQ_cons. lra. }
  apply elem_of_cons in Hp as [-> | Hp]; [lra |].
  specialize (IH Hp). lra.
Qed.

Lemma sumQ_reaches_below (l : list ClosedPosition) (p : ClosedPosition) :
  Forall (fun q => (pnl q <= 0)%Q) l -> p ∈ l -> (sumQ (pnl <$> l) <= pnl p)%Q.
Proof.
  intros Hl Hp. induction Hl as [| q l Hq Hl IH]; [inversion Hp |].
  rewrite fmap_cons, sumQ_cons.
  assert (sumQ (pnl <$> l) <= 0)%Q as Hsum.
  { clear IH Hp. induction Hl as [| x l Hx _ IH]; [cbn; lra |].
    rewrite fmap_cons, sumQ_cons. lra. }
  apply elem_of_cons in Hp as [-> | Hp]; [lra |].
  specialize (IH Hp). lra.
Qed.

(** The biggest win is one of the wins and no win is above it. *)
Lemma biggest_among_wins (l : list ClosedPosition) (p : ClosedPosition) :
  extremal (fun p max => Qltb (pnl max) (pnl p)) (winsOf l) = Some p ->
  p ∈ winsOf l /\ Forall (fun q => (pnl q <= pnl p)%Q) (winsOf l).
Proof.
  intros H. apply biggest_of_wins in H as (before & after & -> & Hp & Hb & Ha).
  split.
  - apply list_elem_of_In, filter_In. split.
    + apply list_elem_of_In, elem_of_app. right. left.
    + apply Qltb_lt, Hp.
  - apply Forall_forall. intros q Hq.
    apply list_elem_of_In, filter_In in Hq as [Hq Hwin].
    apply Qltb_lt in Hwin.
    apply list_elem_of_In, elem_of_app in Hq as [Hq | Hq].
    + apply Qlt_le_weak, Hb; assumption.
    + apply elem_of_cons in Hq as [-> | Hq]; [lra | apply Ha; assumption].
Qed.

Lemma biggest_among_losses (l : list ClosedPosition) (p : ClosedPosition) :
  extremal (fun p min => Qltb (pnl p) (pnl min)) (lossesOf l) = Some p ->
  p ∈ lossesOf l /\ Forall (fun q => (pnl p <= pnl q)%Q) (lossesOf l).
Proof.
  intros H. apply biggest_of_losses in H as (before & after & -> & Hp & Hb & Ha).
  split.
  - apply list_elem_of_In, filter_In. split.
    + apply list_elem_of_In, elem_of_app. right. left.
    + apply Qltb_lt, Hp.
  - apply Forall_forall. intros q Hq.
    apply list_elem_of_In, filter_In in Hq as [Hq Hloss].
    apply Qltb_lt in Hloss.
    apply list_elem_of_In, elem_of_app in Hq as [Hq | Hq].
    + apply Qlt_le_weak, Hb; assumption.
    + apply elem_of_cons in Hq as [-> | Hq]; [lra | apply Ha; assumption].
Qed.

End Extremes.

(** X6. The totals reach the extremes: whenever [biggestWin] is not null
    its [realizedPnl] is positive and at most [totalWinAmount], and
    whenever [biggestLoss] is not null the size of its [realizedPnl] is
    positive and at most [totalLossAmount]. *)
Theorem totals_reach_extremes (closedPositions : option (list ClosedPosition)) :
  let r := calculateWinLossStats closedPositions in
  (forall p, biggestWin r = Some p ->
     (0 < pnl p <= orZero (totalWinAmount r))%Q) /\
  (forall p, biggestLoss r = Some p ->
     (0 < - pnl p <= orZero (totalLossAmount r))%Q).
Proof.
  cbv zeta.
  destruct closedPositions as [[| p0 l] |];
    try (cbn; split; intros; discriminate).
  set (cps := p0 :: l). assert (cps <> []) as Hne by discriminate.
  rewrite biggestWin_nonempty, biggestLoss_nonempty, totalWinAmount_nonempty,
    totalLossAmount_nonempty by assumption.
  cbn [orZero from_option id]. unfold id.
  split; intros p Hp.
  - apply biggest_among_wins in Hp as [Hin _].
    pose proof (winsOf_pos cps) as Hpos.
    assert (0 < pnl p)%Q as Hp0 by (rewrite Forall_forall in Hpos; apply Hpos, Hin).
    split; [exact Hp0 |]. rewrite sumPnl_sumQ. apply sumQ_reaches; [| exact Hin].
    eapply Forall_impl; [exact Hpos |]. cbn. intros; lra.
  - apply biggest_among_losses in Hp as [Hin _].
    pose proof (lossesOf_neg cps) as Hneg.
    assert (pnl p < 0)%Q as Hp0 by (rewrite Forall_forall in Hneg; apply Hneg, Hin).
    split; [lra |]. destruct (loss_amount cps) as [HL _]. rewrite HL, sumPnl_sumQ.
    assert (sumQ (pnl <$> lossesOf cps) <= pnl p)%Q as H; [| lra].
    apply sumQ_reaches_below; [| exact Hin].
    eapply Forall_impl; [exact Hneg |]. cbn. intros; lra.
Qed.

(** ** Independence of the order of the input *)

Section OrderIndependence.

Lemma foldl_swap_perm {A B : Type} (f : A -> B -> A) :
  (forall a x y, f (f a x) y = f (f a y) x) ->
  forall l1 l2 : list B, l1 ≡ₚ l2 -> forall a, foldl f a l1 = foldl f a l2.
Proof.
  intros Hswap l1 l2 Hperm.
  induction Hperm as [| x l1 l2 _ IH | x y l | l1 l2 l3 _ IH1 _ IH2]; intros a.
  - reflexivity.
  - cbn [foldl]. apply IH.
  - cbn [foldl]. rewrite Hswap. reflexivity.
  - rewrite IH1. apply IH2.
Qed.

Lemma filter_perm {A : Type} (f : A -> bool) (l1 l2 : list A) :
  l1 ≡ₚ l2 -> List.filter f l1 ≡ₚ List.filter f l2.
Proof.
  induction 1 as [| x l1 l2 _ IH | x y l | l1 l2 l3 _ IH1 _ IH2].
  - reflexivity.
  - cbn [List.filter]. destruct (f x); [constructor |]; exact IH.
  - cbn [List.filter]. destruct (f x), (f y); try reflexivity. apply perm_swap.
  - etransitivity; eassumption.
Qed.

(** Adding two amounts to a third one in either order gives the very same
    fraction, not only an equal one. *)
Lemma Qplus_swap (a b c : Q) : (a + b + c)%Q = (a + c + b)%Q.
Proof.
  destruct a as [an ad], b as [bn bd], c as [cn cd].
  unfold Qplus. cbn [Qnum Qden]. f_equal; lia.
Qed.

Lemma record_position_swap (p q : ClosedPosition) (d : Acc.t) :
  record_position p (record_position q d)
  = record_position q (record_position p d).
Proof.
  destruct d as [w l t c]. unfold record_position.
  destruct (Qltb 0 (orZero (realizedPnl p))), (Qltb (orZero (realizedPnl p)) 0),
    (Qltb 0 (orZero (realizedPnl q))), (Qltb (orZero (realizedPnl q)) 0);
    cbn; f_equal; apply Qplus_swap.
Qed.

Lemma range_step_swap (m : gmap string Acc.t) (p q : ClosedPosition) :
  range_step (range_step m p) q = range_step (range_step m q) p.
Proof.
  unfold range_step.
  destruct (decide (range_of q = range_of p)) as [-> | Hne].
  - rewrite !alter_alter_eq. apply alter_ext. intros d _. cbn.
    apply record_position_swap.
  - apply alter_alter_ne, Hne.
Qed.

Lemma category_step_lookup (m : gmap string Acc.t) (p : ClosedPosition)
    (k : string) :
  category_step m p !! k
  = if decide (category_of p = k)
    then Some (record_position p (default Acc.zero (m !! k)))
    else m !! k.
Proof.
  unfold category_step. destruct (decide (category_of p = k)) as [<- | Hne].
  - rewrite lookup_alter_eq. destruct (m !! category_of p) eqn:E.
    + rewrite E. reflexivity.
    + rewrite lookup_insert_eq. reflexivity.
  - rewrite lookup_alter_ne by exact Hne.
    destruct (m !! category_of p); [| rewrite lookup_insert_ne by exact Hne];
      reflexivity.
Qed.

Lemma category_step_swap (m : gmap string Acc.t) (p q : ClosedPosition) :
  category_step (category_step m p) q = category_step (category_step m q) p.
Proof.
  apply map_eq. intros k. rewrite !category_step_lookup.
  destruct (decide (category_of q = k)), (decide (category_of p = k));
    cbn; try reflexivity.
  f_equal. apply record_position_swap.
Qed.

End OrderIndependence.

(** X7. The counters of the two bucket maps do not depend on the order of
    the closed positions: after a permutation of the input every bucket,
    of either map, is there or not as before and has the same [count],
    [wins], [losses] and [winRate].  (The order of the keys of the category
    object, which follows the first occurrences, is not part of this.) *)
Theorem buckets_order_independent (l1 l2 : list ClosedPosition) :
  l1 ≡ₚ l2 ->
  forall k : string,
    tallies <$> (calculateWinLossByPriceRange l1 !! k)
    = tallies <$> (calculateWinLossByPriceRange l2 !! k) /\
    tallies <$> (calculateWinLossByCategory l1 !! k)
    = tallies <$> (calculateWinLossByCategory l2 !! k).
Proof.
  intros Hperm k. unfold calculateWinLossByPriceRange, calculateWinLossByCategory.
  assert (foldl range_step ranges0 l1 = foldl range_step ranges0 l2) as ->.
  { apply foldl_swap_perm; [| exact Hperm]. intros m p q. apply range_step_swap. }
  assert (foldl category_step ∅ l1 = foldl category_step ∅ l2) as ->.
  { apply foldl_swap_perm; [| exact Hperm]. intros m p q. apply category_step_swap. }
  split; reflexivity.
Qed.

Lemma buckets_order_independent_witness :
  scenario ≡ₚ reverse scenario /\
  tallies <$> (calculateWinLossByCategory scenario !! "Crypto")
  = tallies <$> (calculateWinLossByCategory (reverse scenario) !! "Crypto").
Proof.
  split; [apply perm_swap |].
  apply (buckets_order_independent scenario (reverse scenario)).
  apply perm_swap.
Defined.

(** X8. The counters of [calculateWinLossStats] do not depend on the
    order of the closed positions: [totalResolved], [wins], [losses],
    [breakeven] and [winRate] are the same after a permutation.  So is the
    [realizedPnl] of [biggestWin] and of [biggestLoss], and whether each
    is null, although the position itself may be another one of the same
    [realizedPnl]. *)
Theorem scalars_order_independent (l1 l2 : list ClosedPosition) :
  l1 ≡ₚ l2 ->
  let r1 := calculateWinLossStats (Some l1) in
  let r2 := calculateWinLossStats (Some l2) in
  totalResolved r1 = totalResolved r2 /\ wins r1 = wins r2 /\
  losses r1 = losses r2 /\ breakeven r1 = breakeven r2 /\
  winRate r1 = winRate r2 /\
  (biggestWin r1 = None <-> biggestWin r2 = None) /\
  (biggestLoss r1 = None <-> biggestLoss r2 = None) /\
  (forall p1 p2, biggestWin r1 = Some p1 -> biggestWin r2 = Some p2 ->
     (pnl p1 == pnl p2)%Q) /\
  (forall p1 p2, biggestLoss r1 = Some p1 -> biggestLoss r2 = Some p2 ->
     (pnl p1 == pnl p2)%Q).
Proof.
  intros Hperm. cbv zeta.
  destruct l1 as [| p1 l1].
  { apply Permutation_nil in Hperm. subst l2. cbn.
    repeat split; intros; discriminate. }
  destruct l2 as [| p2 l2].
  { symmetry in Hperm. apply Permutation_nil in Hperm. discriminate Hperm. }
  set (a := p1 :: l1) in *. set (b := p2 :: l2) in *.
  assert (a <> []) as Ha by discriminate. assert (b <> []) as Hb by discriminate.
  assert (length a = length b) as Hlen by (apply Permutation_length, Hperm).
  assert (winsOf a ≡ₚ winsOf b) as Hw by (apply filter_perm, Hperm).
  assert (lossesOf a ≡ₚ lossesOf b) as Hl by (apply filter_perm, Hperm).
  assert (length (breakevenOf a) = length (breakevenOf b)) as Hbe
    by (apply Permutation_length, filter_perm, Hperm).
  rewrite !totalResolved_nonempty, !wins_nonempty, !losses_nonempty,
    !breakeven_nonempty, !winRate_nonempty, !biggestWin_nonempty,
    !biggestLoss_nonempty by assumption.
  rewrite Hlen, (Permutation_length Hw), (Permutation_length Hl), Hbe.
  do 5 (split; [reflexivity |]).
  split; [| split; [| split]].
  - rewrite !extremal_None. split; intros E.
    + rewrite E in Hw. apply Permutation_nil, Hw.
    + rewrite E in Hw. symmetry in Hw. apply Permutation_nil, Hw.
  - rewrite !extremal_None. split; intros E.
    + rewrite E in Hl. apply Permutation_nil, Hl.
    + rewrite E in Hl. symmetry in Hl. apply Permutation_nil, Hl.
  - intros q1 q2 H1 H2.
    apply biggest_among_wins in H1 as [Hin1 Hall1].
    apply biggest_among_wins in H2 as [Hin2 Hall2].
    rewrite Forall_forall in Hall1, Hall2.
    assert (pnl q2 <= pnl q1)%Q by (apply Hall1; rewrite Hw; exact Hin2).
    assert (pnl q1 <= pnl q2)%Q by (apply Hall2; rewrite <- Hw; exact Hin1).
    lra.
  - intros q1 q2 H1 H2.
    apply biggest_among_losses in H1 as [Hin1 Hall1].
    apply biggest_among_losses in H2 as [Hin2 Hall2].
    rewrite Forall_forall in Hall1, Hall2.
    assert (pnl q1 <= pnl q2)%Q by (apply Hall1; rewrite Hl; exact Hin2).
    assert (pnl q2 <= pnl q1)%Q by (apply Hall2; rewrite <- Hl; exact Hin1).
    lra.
Qed.

Lemma scalars_order_independent_witness :
  scenario ≡ₚ reverse scenario /\
  winRate (calculateWinLossStats (Some scenario))
  = winRate (calculateWinLossStats (Some (reverse scenario))).
Proof.
  split; [apply perm_swap |].
  apply (scalars_order_independent scenario (reverse scenario)).
  apply perm_swap.
Defined.

(** ** Trade volumes and counts by side *)

Section TradeSides.

Let usdc (t : Activity.t) : Q := orZero (Activity.usdcSize t).

Lemma sumUsdc_shift (l : list Activity.t) (a : Q) :
  (foldl (fun sum t => sum + orZero (Activity.usdcSize t))%Q a l
   == a + sumQ (usdc <$> l))%Q.
Proof.
  revert a. induction l as [| t l IH]; intros a.
  - cbn. ring.
  - cbn [foldl]. rewrite IH, (fmap_cons usdc t l), sumQ_cons.
    unfold usdc at 2. ring.
Qed.

Lemma sumUsdc_sumQ (l : list Activity.t) : (sumUsdc l == sumQ (usdc <$> l))%Q.
Proof. unfold sumUsdc. rewrite sumUsdc_shift. ring. Qed.

Lemma sides_disjoint (t : Activity.t) :
  isSide "BUY" t = true -> isSide "SELL" t = false.
Proof.
  unfold isSide. intros H. apply String.eqb_eq in H. rewrite H. reflexivity.
Qed.

Lemma sides_count_le (l : list Activity.t) :
  length (List.filter (isSide "BUY") l) + length (List.filter (isSide "SELL") l)
  <= length l.
Proof.
  induction l as [| t l IH]; [reflexivity |].
  cbn [List.filter].
  destruct (isSide "BUY" t) eqn:Eb.
  - rewrite (sides_disjoint t Eb). cbn [length]. lia.
  - destruct (isSide "SELL" t); cbn [length]; lia.
Qed.

Lemma sides_partition (l : list Activity.t) :
  Forall (fun t => Activity.side t = "BUY" \/ Activity.side t = "SELL") l ->
  length (List.filter (isSide "BUY") l) + length (List.filter (isSide "SELL") l)
  = length l.
Proof.
  induction 1 as [| t l Ht _ IHn].
  - reflexivity.
  - assert (isSide "BUY" t = true /\ isSide "SELL" t = false \/
            isSide "BUY" t = false /\ isSide "SELL" t = true) as Hside.
    { unfold isSide. destruct Ht as [-> | ->]; [left | right]; split; reflexivity. }
    cbn [List.filter].
    destruct Hside as [[-> ->] | [-> ->]]; cbn [length]; lia.
Qed.

(** The volume of some of the trades is within that of all of them, when
    no size is negative. *)
Lemma sumUsdc_filter (f : Activity.t -> bool) (l : list Activity.t) :
  Forall (fun t => (0 <= orZero (Activity.usdcSize t))%Q) l ->
  (0 <= sumUsdc (List.filter f l) <= sumUsdc l)%Q.
Proof.
  intros Hl. rewrite !sumUsdc_sumQ.
  induction Hl as [| t l Ht _ IH]; [cbn; lra |].
  cbn [List.filter]. rewrite (fmap_cons usdc t l), (sumQ_cons (usdc t)).
  fold (usdc t) in Ht.
  destruct (f t); [rewrite fmap_cons, sumQ_cons |]; lra.
Qed.

End TradeSides.

(** X9. When every TRADE record has the side BUY or SELL, the two sides
    split the trades: [buys + sells] is [totalTrades].  When no TRADE
    record has a negative size, [buyVolume] and [sellVolume] each lie
    between 0 and [totalVolume]. *)
Theorem trade_sides_partition (toFixed : Q -> nat -> string) (data : Data.t) :
  let s := calculateStats toFixed data in
  ((forall a, a ∈ Data.activity data -> Activity.type a = "TRADE" ->
              Activity.side a = "BUY" \/ Activity.side a = "SELL") ->
   buys s + sells s = totalTrades s) /\
  ((forall a, a ∈ Data.activity data -> Activity.type a = "TRADE" ->
              (0 <= orZero (Activity.usdcSize a))%Q) ->
   (0 <= buyVolume s <= totalVolume s)%Q /\
   (0 <= sellVolume s <= totalVolume s)%Q).
Proof.
  cbv zeta. unfold calculateStats.
  cbn [buys sells totalTrades buyVolume sellVolume totalVolume].
  set (trades := List.filter _ (Data.activity data)).
  assert (forall P : Activity.t -> Prop,
            (forall a, a ∈ Data.activity data -> Activity.type a = "TRADE" -> P a) ->
            Forall P trades) as Hlift.
  { intros P HP. apply Forall_forall. intros t Ht. subst trades.
    apply list_elem_of_In, filter_In in Ht as [Ht Htype].
    apply HP; [apply list_elem_of_In, Ht | apply String.eqb_eq, Htype]. }
  split.
  - intros Hsides. apply sides_partition, Hlift, Hsides.
  - intros Hsizes. apply Hlift in Hsizes.
    split; apply sumUsdc_filter, Hsizes.
Qed.

Lemma trade_sides_partition_witness :
  buys (calculateStats blank_toFixed sample_data)
  + sells (calculateStats blank_toFixed sample_data)
  = totalTrades (calculateStats blank_toFixed sample_data).
Proof.
  apply (proj1 (trade_sides_partition blank_toFixed sample_data)).
  intros a Ha Htype. cbn [sample_data Data.activity] in Ha.
  unfold sample_activity in Ha.
  repeat (apply elem_of_cons in Ha as [-> | Ha]);
    [left; reflexivity | right; reflexivity | discriminate Htype | inversion Ha].
Defined.

(** X10. For every input [buys + sells] does not exceed [totalTrades];
    when no record passes the TRADE filter every trade statistic is
    neutral: the totals are 0, the ratio is the no-ratio marker and both
    distributions hold only zeros. *)
Theorem trade_counts_sound (toFixed : Q -> nat -> string) (data : Data.t) :
  let s := calculateStats toFixed data in
  buys s + sells s <= totalTrades s /\
  (totalTrades s = 0 ->
   totalVolume s = 0%Q /\ avgTradeSize s = 0%Q /\ buys s = 0 /\ sells s = 0 /\
   buyVolume s = 0%Q /\ sellVolume s = 0%Q /\ buySellRatio s = "-" /\
   hourDistribution s = replicate 24 0 /\ dayDistribution s = days0).
Proof.
  cbv zeta. unfold calculateStats.
  cbn [buys sells totalTrades avgTradeSize totalVolume buyVolume sellVolume
       buySellRatio hourDistribution dayDistribution].
  set (trades := List.filter _ (Data.activity data)).
  split; [apply sides_count_le |].
  intros H0. destruct trades; [| discriminate H0]. cbn. repeat split.
Qed.

Section TradeOrder.

Lemma getHourDistribution_perm (l1 l2 : list Activity.t) :
  l1 ≡ₚ l2 -> getHourDistribution l1 = getHourDistribution l2.
Proof.
  intros H. unfold getHourDistribution. apply foldl_swap_perm; [| exact H].
  intros hours x y.
  destruct (getUTCHours (Activity.timestamp x * 1000)) as [hx |];
    destruct (getUTCHours (Activity.timestamp y * 1000)) as [hy |];
    try reflexivity.
  rewrite list_alter_alter.
  case_decide as E; [rewrite E, list_alter_alter_eq |]; reflexivity.
Qed.

Lemma getDayDistribution_perm (l1 l2 : list Activity.t) :
  l1 ≡ₚ l2 -> getDayDistribution l1 = getDayDistribution l2.
Proof.
  intros H. unfold getDayDistribution. apply foldl_swap_perm; [| exact H].
  intros days x y.
  destruct (getUTCDay (Activity.timestamp x * 1000)) as [dx |];
    destruct (getUTCDay (Activity.timestamp y * 1000)) as [dy |];
    try reflexivity.
  destruct (dayNames !! dx) as [nx |]; destruct (dayNames !! dy) as [ny |];
    try reflexivity.
  rewrite alter_alter. case_decide as E; [rewrite E, alter_alter_eq |]; reflexivity.
Qed.

End TradeOrder.

(** X11. The counters of the trade statistics do not depend on the order
    of the activity records: two inputs whose activity arrays are
    permutations of each other give the same [totalTrades], [buys],
    [sells] and [buySellRatio], the same 24 hour counters and the same
    weekday counters. *)
Theorem trade_stats_order_independent (toFixed : Q -> nat -> string)
    (d1 d2 : Data.t) :
  Data.activity d1 ≡ₚ Data.activity d2 ->
  let s1 := calculateStats toFixed d1 in
  let s2 := calculateStats toFixed d2 in
  totalTrades s1 = totalTrades s2 /\ buys s1 = buys s2 /\ sells s1 = sells s2 /\
  buySellRatio s1 = buySellRatio s2 /\
  hourDistribution s1 = hourDistribution s2 /\
  dayDistribution s1 = dayDistribution s2.
Proof.
  intros Hperm. cbv zeta. unfold calculateStats.
  cbn [totalTrades buys sells buySellRatio hourDistribution dayDistribution].
  set (t1 := List.filter _ (Data.activity d1)).
  set (t2 := List.filter _ (Data.activity d2)).
  assert (t1 ≡ₚ t2) as Ht by (apply filter_perm, Hperm).
  rewrite (Permutation_length Ht).
  rewrite (Permutation_length (filter_perm (isSide "BUY") _ _ Ht)).
  rewrite (Permutation_length (filter_perm (isSide "SELL") _ _ Ht)).
  rewrite (getHourDistribution_perm _ _ Ht), (getDayDistribution_perm _ _ Ht).
  repeat split.
Qed.

Lemma trade_stats_order_independent_witness :
  hourDistribution (calculateStats blank_toFixed sample_data)
  = hourDistribution
      (calculateStats blank_toFixed (Data.mk (reverse sample_activity) [] None)).
Proof.
  apply (trade_stats_order_independent blank_toFixed
           sample_data (Data.mk (reverse sample_activity) [] None)).
  apply Permutation_rev.
Defined.

(** ** Market categories *)

Section MarketCategories.

Lemma find_match_default (entries : list (string * list string))
    (title fallback : string) :
  default fallback (find_match entries title) = first_match entries title fallback.
Proof.
  induction entries as [| [cat words] entries IH]; cbn; [reflexivity |].
  destruct (existsb _ words); [reflexivity | exact IH].
Qed.

Lemma market_category_name (title : string) :
  default "Other" (find_match marketKeywords title) ∈ categoryNames.
Proof. rewrite find_match_default. apply (first_match_names marketKeywords). Qed.

Lemma dom_categories0 : dom categories0 = list_to_set categoryNames.
Proof.
  unfold categories0. rewrite !dom_insert_L, dom_empty_L.
  cbn. reflexivity.
Qed.

(** What [market_step] does to its state, by whether the market is new. *)
Lemma market_step_seen (st : gmap string nat * gmap string string)
    (trade : Activity.t) :
  is_Some (st.2 !! Activity.conditionId trade) -> market_step st trade = st.
Proof. intros [c Hc]. unfold market_step. rewrite Hc. reflexivity. Qed.

Lemma market_step_new (st : gmap string nat * gmap string string)
    (trade : Activity.t) :
  st.2 !! Activity.conditionId trade = None ->
  let category :=
    default "Other"
      (find_match marketKeywords
         (toLowerCase (default "" (Activity.title trade)))) in
  market_step st trade
  = (alter S category st.1, <[Activity.conditionId trade := category]> st.2).
Proof.
  intros Hnew. unfold market_step. rewrite Hnew.
  destruct (find_match marketKeywords _); reflexivity.
Qed.

Lemma market_fold_inv (trades : list Activity.t)
    (st : gmap string nat * gmap string string) :
  dom st.1 = list_to_set categoryNames ->
  sum_list (marketCount st.1 <$> categoryNames) = size st.2 ->
  let st' := foldl market_step st trades in
  dom st'.1 = list_to_set categoryNames /\
  sum_list (marketCount st'.1 <$> categoryNames) = size st'.2 /\
  dom st'.2 = dom st.2 ∪ list_to_set (Activity.conditionId <$> trades).
Proof.
  revert st. induction trades as [| t trades IH]; intros st Hdom Hsum.
  - cbn. repeat split; try assumption. set_solver.
  - cbn [foldl]. cbv zeta.
    destruct (st.2 !! Activity.conditionId t) as [c |] eqn:E.
    + rewrite market_step_seen by (rewrite E; eauto).
      destruct (IH st Hdom Hsum) as (H1 & H2 & H3).
      repeat split; try assumption.
      rewrite H3, fmap_cons. cbn [list_to_set].
      assert (Activity.conditionId t ∈ dom st.2) by (apply elem_of_dom; eauto).
      set_solver.
    + rewrite (market_step_new st t E). cbv zeta.
      set (category := default "Other" _).
      assert (category ∈ categoryNames) as Hcat by apply market_category_name.
      destruct (IH (alter S category st.1,
                    <[Activity.conditionId t := category]> st.2))
        as (H1 & H2 & H3).
      * cbn [fst]. rewrite dom_alter_L. exact Hdom.
      * cbn [fst snd]. rewrite map_size_insert_None by exact E.
        rewrite <- Hsum. unfold marketCount.
        apply (total_alter_incr id categoryNames).
        -- apply categoryNames_NoDup.
        -- exact Hcat.
        -- apply elem_of_dom. rewrite Hdom. apply elem_of_list_to_set, Hcat.
        -- reflexivity.
      * repeat split; try assumption.
        rewrite H3. cbn [snd]. rewrite dom_insert_L, fmap_cons.
        cbn [list_to_set]. set_solver.
Qed.

End MarketCategories.

(** X12. [categorizeMarkets] returns the seven category counters, and they
    add up to the number of distinct markets ([uniqueMarkets]), whatever
    the number of trades in each market. *)
Theorem categorizeMarkets_counts (trades : list Activity.t) :
  dom (categorizeMarkets trades) = list_to_set categoryNames /\
  sum_list (marketCount (categorizeMarkets trades) <$> categoryNames)
  = uniqueMarkets trades.
Proof.
  unfold categorizeMarkets, uniqueMarkets.
  destruct (market_fold_inv trades (categories0, ∅)) as (H1 & H2 & H3).
  - apply dom_categories0.
  - reflexivity.
  - split; [exact H1 |]. rewrite H2, <- size_dom, H3. cbn [snd].
    rewrite dom_empty_L. f_equal. set_solver.
Qed.

(** X13. A market is categorised by its first trade: a trade of a market
    that was seen earlier in the array changes nothing in the result. *)
Theorem categorizeMarkets_first_trade (before after : list Activity.t)
    (trade : Activity.t) :
  Activity.conditionId trade ∈ Activity.conditionId <$> before ->
  categorizeMarkets (before ++ trade :: after)
  = categorizeMarkets (before ++ after).
Proof.
  intros Hseen. unfold categorizeMarkets. rewrite !foldl_app. cbn [foldl].
  rewrite market_step_seen; [reflexivity |].
  destruct (market_fold_inv before (categories0, ∅)) as (_ & _ & H3).
  - apply dom_categories0.
  - reflexivity.
  - apply elem_of_dom. rewrite H3. apply elem_of_union_r, elem_of_list_to_set, Hseen.
Qed.

Lemma categorizeMarkets_first_trade_witness :
  categorizeMarkets
    ([Activity.mk "TRADE" "BUY" 1700000000 None 0.5 "0xabc" (Some "Will BTC hit 100k")]
     ++ Activity.mk "TRADE" "SELL" 1700003600 None 0.6 "0xabc" (Some "NBA Finals") :: [])
  = categorizeMarkets
      ([Activity.mk "TRADE" "BUY" 1700000000 None 0.5 "0xabc" (Some "Will BTC hit 100k")]
       ++ []).
Proof.
  apply (categorizeMarkets_first_trade
           [Activity.mk "TRADE" "BUY" 1700000000 None 0.5 "0xabc" (Some "Will BTC hit 100k")]
           []
           (Activity.mk "TRADE" "SELL" 1700003600 None 0.6 "0xabc" (Some "NBA Finals"))).
  cbn. apply elem_of_cons. left. reflexivity.
Defined.

(** X14. The two keyword tables classify a title alike, except that
    [categorizeMarkets] answers Sports for some titles on which
    [calculateWinLossByCategory] answers something else; this happens
    only for titles that contain "win" or "score". *)
Theorem classifiers_agree_up_to_sports (title : string) :
  let market := default "Other" (find_match marketKeywords title) in
  let position := first_match keywords title "Other" in
  market = position \/
  (market = "Sports" /\
   (includes title "win" = true \/ includes title "score" = true)).
Proof.
  cbv zeta. rewrite find_match_default.
  unfold marketKeywords, keywords. cbn [first_match].
  destruct (existsb (fun word => includes title word)
              ["election"; "president"; "congress"; "senate"; "trump"; "biden";
               "democrat"; "republican"; "vote"; "governor"; "mayor";
               "political"; "impeach"]);
    [left; reflexivity |].
  change ["nba"; "nfl"; "mlb"; "world cup"; "super bowl"; "championship";
          "playoffs"; "game"; "team"; "player"; "win"; "score"; "match"]
    with (["nba"; "nfl"; "mlb"; "world cup"; "super bowl"; "championship";
           "playoffs"; "game"; "team"; "player"]
          ++ ["win"; "score"] ++ ["match"]).
  change ["nba"; "nfl"; "mlb"; "world cup"; "super bowl"; "championship";
          "playoffs"; "game"; "team"; "player"; "match"]
    with (["nba"; "nfl"; "mlb"; "world cup"; "super bowl"; "championship";
           "playoffs"; "game"; "team"; "player"] ++ ["match"]).
  rewrite !existsb_app.
  destruct (existsb (fun word => includes title word)
              ["nba"; "nfl"; "mlb"; "world cup"; "super bowl";
               "championship"; "playoffs"; "game"; "team"; "player"]);
    [left; reflexivity |].
  cbn [existsb orb].
  destruct (includes title "match") eqn:Ematch;
    [rewrite !orb_true_r; left; reflexivity |].
  destruct (includes title "win") eqn:Ewin;
    [right; split; [reflexivity | left; reflexivity] |].
  destruct (includes title "score") eqn:Escore;
    [right; split; [reflexivity | right; reflexivity] |].
  left. reflexivity.
Qed.

(** The same title under the two tables: a title with "win" and "bitcoin"
    is a Sports market for [categorizeMarkets] and a Crypto position for
    [calculateWinLossByCategory]. *)
Example classifiers_differ :
  default "Other" (find_match marketKeywords "who will win the bitcoin race") = "Sports" /\
  first_match keywords "who will win the bitcoin race" "Other" = "Crypto".
Proof. vm_compute. split; reflexivity. Qed.

(** ** Distinct markets, trading days and the date range *)

Section DistinctKeys.

Lemma size_keys_le (l : list string) :
  size (list_to_set l : gset string) <= length l.
Proof.
  induction l as [| x l IH]; [rewrite list_to_set_nil, size_empty; lia |].
  rewrite list_to_set_cons, size_union_alt, size_singleton. cbn [length].
  pose proof (subseteq_size (list_to_set l ∖ {[x]}) (list_to_set l : gset string))
    as Hsub.
  assert (size (list_to_set l ∖ {[x]} : gset string) <= size (list_to_set l : gset string))
    by (apply Hsub; apply subseteq_difference_l; reflexivity).
  lia.
Qed.

Lemma size_keys_pos (l : list string) :
  l <> [] -> 1 <= size (list_to_set l : gset string).
Proof.
  destruct l as [| x l]; [congruence |]. intros _.
  rewrite list_to_set_cons, size_union_alt, size_singleton. lia.
Qed.

Lemma size_keys_same (d : string) (l : list string) :
  l <> [] -> Forall (fun x => x = d) l -> size (list_to_set l : gset string) = 1.
Proof.
  intros Hne Hall.
  assert ((list_to_set l : gset string) = {[d]}) as ->; [| apply size_singleton].
  apply set_eq. intros x. rewrite elem_of_list_to_set, elem_of_singleton.
  rewrite Forall_forall in Hall. split; [apply Hall |].
  intros ->. destruct l as [| y l]; [congruence |].
  rewrite (Hall y) by (apply elem_of_cons; left; reflexivity).
  apply elem_of_cons. left. reflexivity.
Qed.

End DistinctKeys.

(** X15. [uniqueMarkets] and [tradingDays] never exceed the number of
    trades and are at least 1 as soon as there is a trade; trades that
    all fall on one calendar date make [tradingDays] 1 and [tradesPerDay]
    the rendering of the number of trades; without trades [tradesPerDay]
    is the number 0, not a text. *)
Theorem markets_and_days_bounds (isoDate : Z -> string)
    (toFixed : Q -> nat -> string) (trades : list Activity.t) :
  uniqueMarkets trades <= length trades /\
  tradingDays isoDate trades <= length trades /\
  (trades <> [] -> 1 <= uniqueMarkets trades /\ 1 <= tradingDays isoDate trades) /\
  (trades = [] -> tradesPerDay isoDate toFixed trades = inr 0%Q) /\
  (forall d : string, trades <> [] ->
     Forall (fun t => isoDate (Activity.timestamp t * 1000)%Z = d) trades ->
     tradingDays isoDate trades = 1 /\
     tradesPerDay isoDate toFixed trades
     = inl (toFixed (num (length trades) / num 1)%Q 1)).
Proof.
  unfold uniqueMarkets, tradesPerDay, tradingDays.
  split; [| split; [| split; [| split]]].
  - etransitivity; [apply size_keys_le |]. rewrite length_fmap. reflexivity.
  - etransitivity; [apply size_keys_le |]. rewrite length_fmap. reflexivity.
  - intros Hne. split; apply size_keys_pos; destruct trades; cbn; congruence.
  - intros ->. reflexivity.
  - intros d Hne Hall.
    assert (size (list_to_set
                    ((fun t => isoDate (Activity.timestamp t * 1000)%Z) <$> trades)
                  : gset string) = 1) as ->.
    { apply (size_keys_same d).
      - destruct trades; cbn; congruence.
      - apply Forall_fmap. exact Hall. }
    split; reflexivity.
Qed.

Section DateRange.

Lemma foldl_min_spec (rest : list Z) (x : Z) :
  (foldl Z.min x rest = x \/ foldl Z.min x rest ∈ rest) /\
  (foldl Z.min x rest <= x)%Z /\
  Forall (fun y => (foldl Z.min x rest <= y)%Z) rest.
Proof.
  revert x. induction rest as [| y rest IH]; intros x; cbn [foldl].
  - split; [left; reflexivity | split; [lia | constructor]].
  - destruct (IH (Z.min x y)) as (Hin & Hle & Hall).
    split; [| split].
    + destruct Hin as [-> | Hin].
      * destruct (Z.min_spec x y) as [[_ ->] | [_ ->]];
          [left; reflexivity | right; apply elem_of_cons; left; reflexivity].
      * right. apply elem_of_cons. right. exact Hin.
    + lia.
    + constructor; [lia | exact Hall].
Qed.

Lemma foldl_max_spec (rest : list Z) (x : Z) :
  (foldl Z.max x rest = x \/ foldl Z.max x rest ∈ rest) /\
  (x <= foldl Z.max x rest)%Z /\
  Forall (fun y => (y <= foldl Z.max x rest)%Z) rest.
Proof.
  revert x. induction rest as [| y rest IH]; intros x; cbn [foldl].
  - split; [left; reflexivity | split; [lia | constructor]].
  - destruct (IH (Z.max x y)) as (Hin & Hle & Hall).
    split; [| split].
    + destruct Hin as [-> | Hin].
      * destruct (Z.max_spec x y) as [[_ ->] | [_ ->]];
          [right; apply elem_of_cons; left; reflexivity | left; reflexivity].
      * right. apply elem_of_cons. right. exact Hin.
    + lia.
    + constructor; [lia | exact Hall].
Qed.

Lemma Math_min_spec (arr : list Z) :
  arr <> [] ->
  Math_min arr ∈ arr /\ Forall (fun y => (Math_min arr <= y)%Z) arr.
Proof.
  destruct arr as [| x rest]; [congruence |]. intros _. cbn [Math_min].
  destruct (foldl_min_spec rest x) as (Hin & Hle & Hall).
  split; [| constructor; assumption].
  apply elem_of_cons. destruct Hin as [-> | Hin]; [left | right]; auto.
Qed.

Lemma Math_max_spec (arr : list Z) :
  arr <> [] ->
  Math_max arr ∈ arr /\ Forall (fun y => (y <= Math_max arr)%Z) arr.
Proof.
  destruct arr as [| x rest]; [congruence |]. intros _. cbn [Math_max].
  destruct (foldl_max_spec rest x) as (Hin & Hle & Hall).
  split; [| constructor; assumption].
  apply elem_of_cons. destruct Hin as [-> | Hin]; [left | right]; auto.
Qed.

End DateRange.

(** X16. [firstTrade] and [lastTrade] are null exactly when there is no
    trade; otherwise each is the time of one of the trades, and the time
    of every trade lies between them. *)
Theorem first_and_last_trade (trades : list Activity.t) :
  (firstTrade trades = None <-> trades = []) /\
  (lastTrade trades = None <-> trades = []) /\
  (trades <> [] ->
   exists first last,
     firstTrade trades = Some first /\ lastTrade trades = Some last /\
     (exists t, t ∈ trades /\ first = (Activity.timestamp t * 1000)%Z) /\
     (exists t, t ∈ trades /\ last = (Activity.timestamp t * 1000)%Z) /\
     Forall (fun t => (first <= Activity.timestamp t * 1000 <= last)%Z) trades).
Proof.
  unfold firstTrade, lastTrade. cbv zeta. rewrite length_fmap.
  destruct trades as [| t0 trades].
  - cbn. repeat split; congruence.
  - set (l := t0 :: trades).
    change (0 <? length l)%nat with true. cbv iota.
    split; [split; discriminate |]. split; [split; discriminate |].
    intros _. eexists _, _. split; [reflexivity |]. split; [reflexivity |].
    assert (Activity.timestamp <$> l <> []) as Hne by discriminate.
    destruct (Math_min_spec _ Hne) as [Hmin_in Hmin].
    destruct (Math_max_spec _ Hne) as [Hmax_in Hmax].
    apply list_elem_of_fmap in Hmin_in as (tmin & Hmin_eq & Hmin_in).
    apply list_elem_of_fmap in Hmax_in as (tmax & Hmax_eq & Hmax_in).
    split; [exists tmin; split; [exact Hmin_in | congruence] |].
    split; [exists tmax; split; [exact Hmax_in | congruence] |].
    rewrite Forall_fmap in Hmin, Hmax.
    apply Forall_forall. intros t Ht.
    rewrite Forall_forall in Hmin, Hmax.
    specialize (Hmin t Ht). specialize (Hmax t Ht).
    unfold compose in Hmin, Hmax. lia.
Qed.

(** ** Average prices *)

Section AveragePrice.

Lemma sumPrice_shift (l : list Activity.t) (a : Q) :
  (foldl (fun sum t => sum + Activity.price t)%Q a l
   == a + sumQ (Activity.price <$> l))%Q.
Proof.
  revert a. induction l as [| t l IH]; intros a.
  - cbn. ring.
  - cbn [foldl]. rewrite IH, (fmap_cons Activity.price t l), sumQ_cons. ring.
Qed.

Lemma sumPrice_bounds (lo hi : Q) (l : list Activity.t) :
  Forall (fun t => (lo <= Activity.price t <= hi)%Q) l ->
  (num (length l) * lo <= sumPrice l <= num (length l) * hi)%Q.
Proof.
  intros Hall. unfold sumPrice. rewrite sumPrice_shift.
  induction Hall as [| t l Ht _ IH].
  - change (0 * lo <= 0 + 0 <= 0 * hi)%Q. lra.
  - rewrite (fmap_cons Activity.price t l), sumQ_cons. cbn [length].
    rewrite num_S.
    assert ((num (length l) + 1) * lo == num (length l) * lo + lo)%Q as -> by ring.
    assert ((num (length l) + 1) * hi == num (length l) * hi + hi)%Q as -> by ring.
    lra.
Qed.

Lemma average_within (lo hi : Q) (l : list Activity.t) :
  Forall (fun t => (lo <= Activity.price t <= hi)%Q) l -> 0 < length l ->
  (lo <= sumPrice l / num (length l) <= hi)%Q.
Proof.
  intros Hall Hlen. pose proof (num_pos _ Hlen) as Hn.
  destruct (sumPrice_bounds lo hi l Hall) as [Hlo Hhi]. split.
  - apply Qle_shift_div_l; [exact Hn |]. rewrite Qmult_comm. exact Hlo.
  - apply Qle_shift_div_r; [exact Hn |]. rewrite Qmult_comm. exact Hhi.
Qed.

End AveragePrice.

(** X17. When the price of every trade is a probability, between 0 and
    1, so are [avgBuyPrice] and [avgSellPrice]; without a trade of its
    side an average is 0.  (The bounds 0 and 1 also survive the rounding
    of the sums: a sum of [k] prices is at most [k].) *)
Theorem average_prices_within_bounds (trades : list Activity.t) :
  Forall (fun t => (0 <= Activity.price t <= 1)%Q) trades ->
  (0 <= avgBuyPrice trades <= 1)%Q /\
  (0 <= avgSellPrice trades <= 1)%Q /\
  (length (List.filter (isSide "BUY") trades) = 0 -> avgBuyPrice trades = 0%Q) /\
  (length (List.filter (isSide "SELL") trades) = 0 -> avgSellPrice trades = 0%Q).
Proof.
  intros Hall. unfold avgBuyPrice, avgSellPrice. cbv zeta.
  assert (forall s, Forall (fun t => (0 <= Activity.price t <= 1)%Q)
                      (List.filter (isSide s) trades)) as Hside.
  { intros s. apply Forall_forall. intros t Ht.
    apply list_elem_of_In, filter_In in Ht as [Ht _].
    rewrite Forall_forall in Hall. apply Hall, list_elem_of_In, Ht. }
  assert (forall s,
            (0 <= (if (0 <? length (List.filter (isSide s) trades))%nat
                   then sumPrice (List.filter (isSide s) trades)
                        / num (length (List.filter (isSide s) trades))
                   else 0) <= 1)%Q) as Havg.
  { intros s. destruct (0 <? length (List.filter (isSide s) trades))%nat eqn:E.
    - apply average_within; [apply Hside | apply Nat.ltb_lt, E].
    - lra. }
  split; [apply Havg |]. split; [apply Havg |].
  split; intros ->; reflexivity.
Qed.

Lemma average_prices_within_bounds_witness :
  Forall (fun t => (0 <= Activity.price t <= 1)%Q) sample_activity /\
  (0 <= avgBuyPrice sample_activity <= 1)%Q.
Proof.
  assert (Forall (fun t => (0 <= Activity.price t <= 1)%Q) sample_activity) as H.
  { unfold sample_activity. repeat constructor; cbn; lra. }
  split; [exact H |].
  apply (average_prices_within_bounds sample_activity H).
Defined.

(** ** Objects with ordered keys *)

Section OrderedObjects.

Context {V : Type}.

Lemma obj_get_None (k : string) (obj : list (string * V)) :
  obj_get k obj = None <-> k ∉ obj.*1.
Proof.
  induction obj as [| [k' v] obj IH]; cbn.
  - split; [intros _ H; inversion H | reflexivity].
  - destruct (String.eqb k' k) eqn:E.
    + apply String.eqb_eq in E. subst k'. split; [discriminate |].
      intros H. exfalso. apply H. apply elem_of_cons. left. reflexivity.
    + apply String.eqb_neq in E. rewrite IH, not_elem_of_cons. split.
      * intros H. split; [congruence | exact H].
      * intros [_ H]. exact H.
Qed.

Lemma obj_set_fresh (k : string) (v : V) (obj : list (string * V)) :
  k ∉ obj.*1 -> obj_set k v obj = obj ++ [(k, v)].
Proof.
  induction obj as [| [k' v'] obj IH]; cbn; [reflexivity |].
  intros H. apply not_elem_of_cons in H as [Hne H].
  rewrite (proj2 (String.eqb_neq k' k)) by congruence.
  rewrite IH by exact H. reflexivity.
Qed.

Lemma obj_update_fresh_tail (k : string) (f : V -> V) (z : V)
    (obj : list (string * V)) :
  k ∉ obj.*1 -> obj_update k f (obj ++ [(k, z)]) = obj ++ [(k, f z)].
Proof.
  induction obj as [| [k' v'] obj IH]; cbn.
  - intros _. rewrite String.eqb_refl. reflexivity.
  - intros H. apply not_elem_of_cons in H as [Hne H].
    rewrite (proj2 (String.eqb_neq k' k)) by congruence.
    rewrite IH by exact H. reflexivity.
Qed.

Lemma obj_update_present (k : string) (f : V -> V) (obj : list (string * V)) :
  k ∈ obj.*1 ->
  exists o1 v o2,
    obj = o1 ++ (k, v) :: o2 /\ obj_update k f obj = o1 ++ (k, f v) :: o2.
Proof.
  induction obj as [| [k' v'] obj IH]; cbn; [intros H; inversion H |].
  intros H. destruct (String.eqb k' k) eqn:E.
  - apply String.eqb_eq in E. subst k'. exists [], v', obj. split; reflexivity.
  - apply String.eqb_neq in E.
    apply elem_of_cons in H as [H | H]; [congruence |].
    destruct (IH H) as (o1 & v & o2 & -> & ->).
    exists ((k', v') :: o1), v, o2. split; reflexivity.
Qed.

(** Writing the entries of an object with distinct keys into an empty
    object rebuilds it entry by entry. *)
Lemma rebuild_distinct (entries acc : list (string * V)) :
  NoDup (acc ++ entries).*1 ->
  foldl (fun obj entry => obj_set entry.1 entry.2 obj) acc entries
  = acc ++ entries.
Proof.
  revert acc. induction entries as [| [k v] entries IH]; intros acc Hnd.
  - cbn. rewrite app_nil_r. reflexivity.
  - cbn [foldl fst snd]. rewrite obj_set_fresh.
    + rewrite IH; rewrite <- app_assoc; [reflexivity | exact Hnd].
    + rewrite fmap_app, fmap_cons in Hnd. cbn [fst] in Hnd.
      apply NoDup_app in Hnd as (_ & Hdisj & _).
      intros Hin. apply (Hdisj k Hin). apply elem_of_cons. left. reflexivity.
Qed.

End OrderedObjects.

(** ** The order of the month keys *)

Section KeyOrder.

Lemma leb_trans (a b c : string) :
  String.leb a b = true -> String.leb b c = true -> String.leb a c = true.
Proof.
  unfold String.leb. intros Hab Hbc.
  destruct (String.compare a b) eqn:Eab; try discriminate;
    destruct (String.compare b c) eqn:Ebc; try discriminate.
  - apply String.compare_eq_iff in Eab. subst b. rewrite Ebc. reflexivity.
  - apply String.compare_eq_iff in Eab. subst b. rewrite Ebc. reflexivity.
  - apply String.compare_eq_iff in Ebc. subst c. rewrite Eab. reflexivity.
  - apply OrderedTypeEx.String_as_OT.cmp_lt in Eab, Ebc.
    pose proof (OrderedTypeEx.String_as_OT.lt_trans _ _ _ Eab Ebc) as Hac.
    apply OrderedTypeEx.String_as_OT.cmp_lt in Hac.
    unfold OrderedTypeEx.String_as_OT.cmp in Hac. rewrite Hac. reflexivity.
Qed.

Lemma leb_ne_ltb (a b : string) :
  String.leb a b = true -> a <> b -> String.ltb a b = true.
Proof.
  unfold String.leb, String.ltb. intros Hab Hne.
  destruct (String.compare a b) eqn:E; try discriminate; [| reflexivity].
  apply String.compare_eq_iff in E. congruence.
Qed.

Global Instance key_le_trans {V : Type} : Transitive (@key_le V).
Proof. intros a b c. unfold key_le. apply leb_trans. Qed.

Global Instance key_le_total {V : Type} : Total (@key_le V).
Proof. intros a b. unfold key_le. apply String.leb_total. Qed.

Lemma sorted_distinct_strict {V : Type} (l : list (string * V)) :
  StronglySorted key_le l -> NoDup l.*1 ->
  StronglySorted (fun a b => String.ltb a.1 b.1 = true) l.
Proof.
  induction 1 as [| a l Hl IH Hall]; intros Hnd; [constructor |].
  rewrite fmap_cons in Hnd. apply NoDup_cons in Hnd as [Ha Hnd].
  constructor; [apply IH, Hnd |].
  apply Forall_forall. intros b Hb. rewrite Forall_forall in Hall.
  apply leb_ne_ltb; [apply Hall, Hb |].
  intros Heq. apply Ha. rewrite Heq. apply list_elem_of_fmap. eauto.
Qed.

End KeyOrder.

(** ** Monthly volume *)

Section MonthlyVolumeFacts.

Variable getUTCFullYear : Z -> Z.
Variable getUTCMonth : Z -> nat.

Let key (t : Activity.t) : string :=
  monthKey getUTCFullYear getUTCMonth (Activity.timestamp t * 1000).

(** A month of the result has at least one trade, and its buys and sells
    are among its trades. *)
Let sound (m : Month.t) : Prop :=
  1 <= Month.trades m /\ Month.buys m + Month.sells m <= Month.trades m.

Lemma month_step_cases (monthly : list (string * Month.t)) (t : Activity.t) :
  ((key t ∉ monthly.*1) /\
   month_step getUTCFullYear getUTCMonth monthly t
   = monthly ++ [(key t, month_record t Month.zero)]) \/
  (exists o1 v o2,
     monthly = o1 ++ (key t, v) :: o2 /\
     month_step getUTCFullYear getUTCMonth monthly t
     = o1 ++ (key t, month_record t v) :: o2).
Proof.
  unfold month_step. cbv zeta. fold (key t).
  destruct (obj_get (key t) monthly) as [v0 |] eqn:E.
  - right. apply obj_update_present.
    destruct (decide (key t ∈ monthly.*1)) as [Hin | Hout]; [exact Hin |].
    apply obj_get_None in Hout. congruence.
  - left. apply obj_get_None in E. split; [exact E |].
    rewrite obj_set_fresh by exact E. apply obj_update_fresh_tail, E.
Qed.

Lemma month_record_trades (t : Activity.t) (m : Month.t) :
  Month.trades (month_record t m) = S (Month.trades m).
Proof.
  unfold month_record.
  destruct (String.eqb (Activity.side t) "BUY"),
    (String.eqb (Activity.side t) "SELL"); reflexivity.
Qed.

Lemma month_record_sound (t : Activity.t) (m : Month.t) :
  Month.buys m + Month.sells m <= Month.trades m -> sound (month_record t m).
Proof.
  intros Hm. unfold sound, month_record.
  destruct (String.eqb (Activity.side t) "BUY") eqn:Eb.
  - apply String.eqb_eq in Eb. rewrite Eb. cbn. lia.
  - destruct (String.eqb (Activity.side t) "SELL"); cbn; lia.
Qed.

Lemma month_fold_inv (trades : list Activity.t)
    (monthly : list (string * Month.t)) :
  NoDup monthly.*1 -> Forall (fun e => sound e.2) monthly ->
  let monthly' := foldl (month_step getUTCFullYear getUTCMonth) monthly trades in
  NoDup monthly'.*1 /\
  Forall (fun e => sound e.2) monthly' /\
  (forall k, k ∈ monthly'.*1 <-> k ∈ monthly.*1 \/ k ∈ key <$> trades) /\
  sum_list ((fun e => Month.trades e.2) <$> monthly')
  = sum_list ((fun e => Month.trades e.2) <$> monthly) + length trades.
Proof.
  revert monthly. induction trades as [| t trades IH]; intros monthly Hnd Hall.
  - cbn. repeat split; try assumption; [tauto | | lia].
    intros [H | H]; [exact H | inversion H].
  - cbn [foldl]. cbv zeta.
    destruct (month_step_cases monthly t) as [[Hnew ->] | (o1 & v & o2 & -> & ->)].
    + destruct (IH (monthly ++ [(key t, month_record t Month.zero)]))
        as (H1 & H2 & H3 & H4).
      * rewrite fmap_app. cbn. apply NoDup_app. split; [exact Hnd |].
        split; [| apply NoDup_singleton].
        intros k Hk Hk'. apply list_elem_of_singleton in Hk'. congruence.
      * apply Forall_app. split; [exact Hall |].
        constructor; [| constructor]. apply month_record_sound. cbn. lia.
      * split; [exact H1 |]. split; [exact H2 |]. split.
        -- intros k. rewrite H3, fmap_app.
           change (fst <$> [(key t, month_record t Month.zero)]) with [key t].
           rewrite elem_of_app, list_elem_of_singleton, (fmap_cons key),
             elem_of_cons.
           tauto.
        -- rewrite H4, fmap_app, sum_list_with_app.
           change (sum_list ((fun e => Month.trades e.2)
                             <$> [(key t, month_record t Month.zero)]))
             with (Month.trades (month_record t Month.zero) + 0).
           rewrite month_record_trades. cbn [length Month.trades Month.zero]. lia.
    + destruct (IH (o1 ++ (key t, month_record t v) :: o2)) as (H1 & H2 & H3 & H4).
      * rewrite fmap_app, fmap_cons in *. exact Hnd.
      * rewrite Forall_app, Forall_cons in *.
        destruct Hall as (Ho1 & Hs & Ho2).
        split; [exact Ho1 |]. split; [| exact Ho2].
        cbn [snd] in *. apply month_record_sound, Hs.
      * split; [exact H1 |]. split; [exact H2 |]. split.
        -- intros k.
           rewrite H3, !fmap_app, !(fmap_cons fst), !elem_of_app, (fmap_cons key),
             !elem_of_cons.
           cbn [fst]. tauto.
        -- rewrite H4, !fmap_app, !sum_list_with_app,
             !(fmap_cons (fun e : string * Month.t => Month.trades e.2)).
           cbn [sum_list_with length snd]. rewrite month_record_trades.
           unfold id. lia.
Qed.

Lemma month_fold_sum (g : Month.t -> nat) (w : Activity.t -> nat) :
  g Month.zero = 0 ->
  (forall t m, g (month_record t m) = g m + w t) ->
  forall (trades : list Activity.t) (monthly : list (string * Month.t)),
    sum_list ((fun e => g e.2)
              <$> foldl (month_step getUTCFullYear getUTCMonth) monthly trades)
    = sum_list ((fun e => g e.2) <$> monthly) + sum_list (w <$> trades).
Proof.
  intros Hz Hg trades. induction trades as [| t trades IH]; intros monthly.
  - cbn. lia.
  - cbn [foldl]. rewrite IH, (fmap_cons w t trades). cbn [sum_list_with].
    unfold id.
    destruct (month_step_cases monthly t) as [[_ ->] | (o1 & v & o2 & -> & ->)].
    + rewrite fmap_app, sum_list_with_app.
      rewrite (fmap_cons (fun e : string * Month.t => g e.2)).
      cbn [sum_list_with snd fmap list_fmap]. unfold id.
      rewrite (Hg t Month.zero), Hz. lia.
    + rewrite !fmap_app, !sum_list_with_app,
        !(fmap_cons (fun e : string * Month.t => g e.2)).
      cbn [sum_list_with snd]. rewrite Hg. unfold id. lia.
Qed.

Lemma month_record_buys (t : Activity.t) (m : Month.t) :
  Month.buys (month_record t m)
  = Month.buys m + (if isSide "BUY" t then 1 else 0).
Proof.
  unfold month_record, isSide.
  destruct (String.eqb (Activity.side t) "BUY") eqn:Eb.
  - apply String.eqb_eq in Eb. rewrite Eb. cbn. lia.
  - destruct (String.eqb (Activity.side t) "SELL"); cbn; lia.
Qed.

Lemma month_record_sells (t : Activity.t) (m : Month.t) :
  Month.sells (month_record t m)
  = Month.sells m + (if isSide "SELL" t then 1 else 0).
Proof.
  unfold month_record, isSide.
  destruct (String.eqb (Activity.side t) "BUY") eqn:Eb.
  - apply String.eqb_eq in Eb. rewrite Eb. cbn. lia.
  - destruct (String.eqb (Activity.side t) "SELL"); cbn; lia.
Qed.

Lemma length_filter_activity (f : Activity.t -> bool) (l : list Activity.t) :
  length (List.filter f l) = sum_list ((fun t => if f t then 1 else 0) <$> l).
Proof.
  induction l as [| t l IH]; [reflexivity |].
  rewrite fmap_cons. cbn [List.filter sum_list_with].
  destruct (f t); cbn [length]; rewrite IH; reflexivity.
Qed.

(** The result is the sorted array of the accumulated entries. *)
Lemma getMonthlyVolume_sorted (trades : list Activity.t) :
  getMonthlyVolume getUTCFullYear getUTCMonth trades
  = merge_sort key_le (foldl (month_step getUTCFullYear getUTCMonth) [] trades)
  /\ NoDup (getMonthlyVolume getUTCFullYear getUTCMonth trades).*1.
Proof.
  unfold getMonthlyVolume. cbv zeta.
  destruct (month_fold_inv trades []) as (Hnd & _); [constructor | constructor |].
  cbv zeta in Hnd.
  assert (NoDup (merge_sort key_le
                   (foldl (month_step getUTCFullYear getUTCMonth) [] trades)).*1)
    as Hsorted.
  { rewrite merge_sort_Permutation. exact Hnd. }
  rewrite (rebuild_distinct _ []) by exact Hsorted.
  split; [reflexivity | exact Hsorted].
Qed.

End MonthlyVolumeFacts.

(** X18. [getMonthlyVolume] returns its months in strictly ascending order
    of their keys, one entry for each month in which a trade falls and no
    other. *)
Theorem monthly_volume_sorted (getUTCFullYear : Z -> Z) (getUTCMonth : Z -> nat)
    (trades : list Activity.t) :
  let monthly := getMonthlyVolume getUTCFullYear getUTCMonth trades in
  StronglySorted (fun a b => String.ltb a.1 b.1 = true) monthly /\
  (forall k, k ∈ monthly.*1 <->
     exists t, t ∈ trades /\
       monthKey getUTCFullYear getUTCMonth (Activity.timestamp t * 1000) = k).
Proof.
  cbv zeta.
  destruct (getMonthlyVolume_sorted getUTCFullYear getUTCMonth trades) as [Heq Hnd].
  split.
  - apply sorted_distinct_strict; [| exact Hnd].
    rewrite Heq. apply StronglySorted_merge_sort; apply _.
  - intros k. rewrite Heq.
    destruct (month_fold_inv getUTCFullYear getUTCMonth trades [])
      as (_ & _ & Hkeys & _); [constructor | constructor |].
    cbv zeta in Hkeys.
    rewrite (fmap_Permutation fst _ _ (merge_sort_Permutation key_le _)), Hkeys.
    split.
    + intros [H | H]; [inversion H |].
      apply list_elem_of_fmap in H as (t & -> & Ht).
      exists t. split; [exact Ht | reflexivity].
    + intros (t & Ht & <-). right. apply list_elem_of_fmap.
      exists t. split; [reflexivity | exact Ht].
Qed.

(** X19. The months of [getMonthlyVolume] share out the trades: their
    [trades], [buys] and [sells] counters add up to the number of trades,
    of BUY trades and of SELL trades, every month has at least one trade,
    and its [buys] and [sells] together never exceed its [trades]. *)
Theorem monthly_volume_conserves_trades (getUTCFullYear : Z -> Z)
    (getUTCMonth : Z -> nat) (trades : list Activity.t) :
  let monthly := getMonthlyVolume getUTCFullYear getUTCMonth trades in
  sum_list ((fun e => Month.trades e.2) <$> monthly) = length trades /\
  sum_list ((fun e => Month.buys e.2) <$> monthly)
  = length (List.filter (isSide "BUY") trades) /\
  sum_list ((fun e => Month.sells e.2) <$> monthly)
  = length (List.filter (isSide "SELL") trades) /\
  Forall (fun e => 1 <= Month.trades e.2 /\
                   Month.buys e.2 + Month.sells e.2 <= Month.trades e.2) monthly.
Proof.
  cbv zeta.
  destruct (getMonthlyVolume_sorted getUTCFullYear getUTCMonth trades) as [Heq _].
  rewrite Heq.
  destruct (month_fold_inv getUTCFullYear getUTCMonth trades [])
    as (_ & Hsound & _ & Hsum); [constructor | constructor |].
  cbv zeta in Hsound, Hsum.
  pose proof (merge_sort_Permutation key_le
                (foldl (month_step getUTCFullYear getUTCMonth) [] trades)) as Hperm.
  split; [| split; [| split]].
  - rewrite Hperm. exact Hsum.
  - rewrite Hperm, length_filter_activity.
    apply (month_fold_sum getUTCFullYear getUTCMonth Month.buys
             (fun t => if isSide "BUY" t then 1 else 0) eq_refl month_record_buys).
  - rewrite Hperm, length_filter_activity.
    apply (month_fold_sum getUTCFullYear getUTCMonth Month.sells
             (fun t => if isSide "SELL" t then 1 else 0) eq_refl month_record_sells).
  - rewrite Hperm. exact Hsound.
Qed.

(** ** The leaderboard rank *)

Section Rank.

Global Instance Qge_trans : Transitive (fun a b : Q => (b <= a)%Q).
Proof. intros a b c Hab Hbc. eapply Qle_trans; eassumption. Qed.

Global Instance Qge_total : Total (fun a b : Q => (b <= a)%Q).
Proof.
  intros a b. destruct (Qlt_le_dec a b) as [H | H]; [right | left];
    [apply Qlt_le_weak, H | exact H].
Qed.

(** On an array sorted from high to low the loop stops on the first value
    that is not above [value]; what is left from there on is exactly the
    values not above it. *)
Lemma rank_loop_sorted (value : Q) (n : nat) (rest : list Q) (i : nat) :
  StronglySorted (fun a b => (b <= a)%Q) rest ->
  i + length rest = n ->
  let k := length (List.filter (fun x => Qle_bool x value) rest) in
  rank_loop value n i rest
  = if decide (k = 0) then 0%Q else (num k / num n * 100)%Q.
Proof.
  intros Hsorted. revert i.
  induction Hsorted as [| x rest Hrest IH Hx]; intros i Hlen; [reflexivity |].
  cbn [rank_loop List.filter]. cbv zeta.
  destruct (Qle_bool x value) eqn:E.
  - assert (List.filter (fun y => Qle_bool y value) rest = rest) as ->.
    { apply Qle_bool_iff in E. clear IH Hrest Hlen.
      induction Hx as [| y rest Hy _ IHx]; [reflexivity |].
      cbn [List.filter].
      rewrite (proj2 (Qle_bool_iff y value)) by (eapply Qle_trans; eassumption).
      rewrite IHx. reflexivity. }
    cbn [length] in *. rewrite decide_False by lia.
    replace (n - i) with (S (length rest)) by lia. reflexivity.
  - apply IH. cbn [length] in Hlen. lia.
Qed.

Lemma Math_round_bounds (x : Q) :
  (0 <= x <= 100)%Q -> (0 <= Math_round x <= 100)%Z.
Proof.
  intros [H0 H100]. unfold Math_round. split.
  - change 0%Z with (Qfloor (1 # 2)). apply Qfloor_resp_le. lra.
  - change 100%Z with (Qfloor (201 # 2)). apply Qfloor_resp_le. lra.
Qed.

End Rank.

(** The loop of [calculateRank] on the sorted copy, in terms of the
    array it was given. *)
Lemma rank_of_sorted (value : Q) (allValues : list Q) :
  let sorted := @merge_sort Q (fun a b => (b <= a)%Q) Qge_dec allValues in
  let k := length (List.filter (fun x => Qle_bool x value) allValues) in
  rank_loop value (length sorted) 0 sorted
  = if decide (k = 0) then 0%Q else (num k / num (length allValues) * 100)%Q.
Proof.
  cbv zeta. set (sorted := merge_sort _ allValues).
  assert (sorted ≡ₚ allValues) as Hperm by apply merge_sort_Permutation.
  assert (StronglySorted (fun a b => (b <= a)%Q) sorted) as Hsorted
    by (apply StronglySorted_merge_sort; apply _).
  rewrite (rank_loop_sorted value (length sorted) sorted 0 Hsorted eq_refl).
  cbv zeta.
  rewrite (Permutation_length (filter_perm _ _ _ Hperm)),
    (Permutation_length Hperm).
  reflexivity.
Qed.

Lemma rank_positive (k n : nat) :
  k <> 0 -> k <= n -> Qeq_bool (num k / num n * 100) 0 = false.
Proof.
  intros Hk Hle. apply not_true_iff_false. intros E.
  apply Qeq_bool_iff, percent_zero_iff in E; [contradiction | lia].
Qed.

(** The rank by the number [k] of values not above [value]. *)
Lemma rank_by_count (value : Q) (allValues : list Q) :
  let k := length (List.filter (fun x => Qle_bool x value) allValues) in
  let n := length allValues in
  calculateRank value allValues
  = if decide (k = 0) then 5%Z else Math_round (num k / num n * 100).
Proof.
  cbv zeta. unfold calculateRank. cbv zeta.
  rewrite rank_of_sorted. cbv zeta.
  set (k := length (List.filter _ allValues)).
  destruct (decide (k = 0)) as [Hk | Hk]; [reflexivity |].
  rewrite rank_positive; [reflexivity | exact Hk |].
  apply filter_length_le.
Qed.

Lemma filter_length_mono {A : Type} (f g : A -> bool) (l : list A) :
  (forall x, f x = true -> g x = true) ->
  length (List.filter f l) <= length (List.filter g l).
Proof.
  intros Hfg. induction l as [| x l IH]; [reflexivity |].
  cbn [List.filter]. destruct (f x) eqn:Ef.
  - rewrite (Hfg x Ef). cbn [length]. lia.
  - destruct (g x); cbn [length]; lia.
Qed.

(** X20. [calculateRank] does not depend on the order of [allValues], and
    among the values that reach at least one entry of [allValues] it is
    monotone: a larger value never gets a smaller rank.  (The fallback
    rank 5 of a value below every entry is outside this order: see
    [bottom_rank_is_not_lowest].) *)
Theorem calculateRank_order (value : Q) (l1 l2 : list Q) :
  l1 ≡ₚ l2 ->
  calculateRank value l1 = calculateRank value l2 /\
  (forall value' : Q,
     (value <= value')%Q -> Exists (fun x => (x <= value)%Q) l1 ->
     (calculateRank value l1 <= calculateRank value' l2)%Z).
Proof.
  intros Hperm.
  assert (forall v, calculateRank v l1 = calculateRank v l2) as Hsame.
  { intros v. rewrite !rank_by_count. cbv zeta.
    rewrite (Permutation_length (filter_perm _ _ _ Hperm)),
      (Permutation_length Hperm). reflexivity. }
  split; [apply Hsame |].
  intros value' Hle Hex. rewrite <- Hsame, !rank_by_count. cbv zeta.
  set (k := length (List.filter (fun x => Qle_bool x value) l1)).
  set (k' := length (List.filter (fun x => Qle_bool x value') l1)).
  assert (k <= k') as Hkk.
  { apply filter_length_mono. intros x Hx. apply Qle_bool_iff in Hx.
    apply Qle_bool_iff. lra. }
  assert (0 < k) as Hk.
  { subst k. clear -Hex. induction Hex as [x l Hx | x l _ IH]; cbn [List.filter].
    - rewrite (proj2 (Qle_bool_iff x value) Hx). cbn. lia.
    - destruct (Qle_bool x value); cbn [length]; lia. }
  assert (k' <= length l1) as Hn by apply filter_length_le.
  rewrite !decide_False by lia.
  unfold Math_round. apply Qfloor_resp_le.
  assert (0 < num (length l1))%Q as Hnum by (apply num_pos; lia).
  pose proof (num_le k k' Hkk) as Hq.
  assert (num k / num (length l1) <= num k' / num (length l1))%Q as Hdiv.
  { apply Qle_shift_div_l; [exact Hnum |].
    assert (num k / num (length l1) * num (length l1) == num k)%Q as ->
      by (field; lra).
    exact Hq. }
  lra.
Qed.

Lemma calculateRank_order_witness :
  calculateRank 50 [10%Q; 90%Q; 40%Q] = calculateRank 50 [90%Q; 40%Q; 10%Q].
Proof.
  apply (calculateRank_order 50 [10%Q; 90%Q; 40%Q] [90%Q; 40%Q; 10%Q]).
  change [90%Q; 40%Q; 10%Q] with ([90%Q; 40%Q] ++ [10%Q]).
  apply Permutation_cons_append.
Defined.

(** A value below all 25 entries gets the fallback rank 5, while a value
    that reaches the lowest entry gets the rank 4. *)
Example bottom_rank_is_not_lowest :
  let allValues := num <$> seq 1 25 in
  calculateRank 0 allValues = 5%Z /\ calculateRank 1 allValues = 4%Z.
Proof. vm_compute. split; reflexivity. Qed.

(** X21. The rank lies between 0 and 100; it is 100 when [value] is at
    least every value of a non-empty array, and 5 when it is below all of
    them. *)
Theorem calculateRank_range (value : Q) (allValues : list Q) :
  (0 <= calculateRank value allValues <= 100)%Z /\
  (allValues <> [] -> Forall (fun x => (x <= value)%Q) allValues ->
   calculateRank value allValues = 100%Z) /\
  (Forall (fun x => (value < x)%Q) allValues ->
   calculateRank value allValues = 5%Z).
Proof.
  unfold calculateRank. cbv zeta. rewrite rank_of_sorted. cbv zeta.
  set (k := length (List.filter (fun x => Qle_bool x value) allValues)).
  assert (k <= length allValues) as Hk by apply filter_length_le.
  assert (k <> 0 -> Qeq_bool (num k / num (length allValues) * 100) 0 = false)
    as Hpos by (intros; apply rank_positive; assumption).
  split; [| split].
  - destruct (decide (k = 0)); [vm_compute; split; discriminate |].
    rewrite Hpos by assumption.
    apply Math_round_bounds, percent_bounds; lia.
  - intros Hne Hall.
    assert (k = length allValues) as ->.
    { subst k. clear Hk Hne Hpos. induction Hall as [| x l Hx _ IH]; [reflexivity |].
      cbn [List.filter]. rewrite (proj2 (Qle_bool_iff x value) Hx).
      cbn [length]. rewrite IH. reflexivity. }
    assert (0 < length allValues) as Hn
      by (destruct allValues; [congruence | cbn; lia]).
    rewrite decide_False by lia. rewrite Hpos by lia. unfold Math_round.
    pose proof (num_pos _ Hn) as Hnum.
    assert (num (length allValues) / num (length allValues) * 100 + (1 # 2)
            == 201 # 2)%Q as -> by (field; lra).
    reflexivity.
  - intros Hall.
    assert (k = 0) as ->; [| reflexivity].
    subst k. clear Hk Hpos. induction Hall as [| x l Hx _ IH]; [reflexivity |].
    cbn [List.filter]. rewrite (proj2 (Qle_bool_false x value) Hx). exact IH.
Qed.

(** X22. The class of a rank follows its text: the class is rank-top
    exactly for the texts Top 10% and Top 25%, rank-mid exactly for
    Top 50%, and rank-low exactly for Top 75% and Bottom 25%. *)
Theorem rank_class_follows_text (percentile : Z) :
  (getRankClass percentile = "rank-top" <->
   getRankText percentile = "Top 10%" \/ getRankText percentile = "Top 25%") /\
  (getRankClass percentile = "rank-mid" <->
   getRankText percentile = "Top 50%") /\
  (getRankClass percentile = "rank-low" <->
   getRankText percentile = "Top 75%" \/ getRankText percentile = "Bottom 25%").
Proof.
  unfold getRankClass, getRankText.
  destruct (90 <=? percentile)%Z eqn:E90, (75 <=? percentile)%Z eqn:E75,
    (50 <=? percentile)%Z eqn:E50, (25 <=? percentile)%Z eqn:E25;
    try (exfalso; lia);
    repeat split; intros; try discriminate; try tauto;
    repeat match goal with H : _ \/ _ |- _ => destruct H end;
    try discriminate; auto.
Qed.

(** ** The paginated fetches *)

Section Pagination.

Context {A : Type}.

Lemma recordLimit_value : recordLimit = 200 * 50.
Proof. reflexivity. Qed.

Lemma closed_loop_slices (records allClosed : list A) (offset : nat) :
  (50 | offset) -> offset < recordLimit ->
  allClosed = take offset records ->
  closed_loop (slices 50 records) allClosed offset = take recordLimit records.
Proof.
  intros Hdiv Hlt Hall.
  funelim (closed_loop (slices 50 records) allClosed offset);
    try discriminate; clear Heqcall;
    match goal with H : slices _ _ _ = Ok _ |- _ => injection H as <- end;
    repeat match goal with H : decide _ = _ |- _ => clear H end;
    pose proof (length_take (drop offset0 records) 50) as Hlen;
    rewrite length_drop in Hlen;
    destruct Hdiv as [q Hq]; rewrite recordLimit_value in *.
  - rewrite !take_ge by lia. reflexivity.
  - rewrite take_take_drop. f_equal. lia.
  - rewrite take_take_drop, !take_ge by lia. reflexivity.
  - apply H.
    + exists (S q). lia.
    + lia.
    + rewrite take_take_drop. f_equal. lia.
Qed.

Lemma activity_loop_slices (records allActivity : list A) (offset : nat) :
  (500 | offset) -> offset < recordLimit ->
  allActivity = take offset records ->
  activity_loop (slices 500 records) allActivity offset
  = Some (take recordLimit records).
Proof.
  intros Hdiv Hlt Hall.
  funelim (activity_loop (slices 500 records) allActivity offset);
    try discriminate; clear Heqcall;
    match goal with H : slices _ _ _ = Ok _ |- _ => injection H as <- end;
    repeat match goal with H : decide _ = _ |- _ => clear H end;
    pose proof (length_take (drop offset0 records) 500) as Hlen;
    rewrite length_drop in Hlen;
    destruct Hdiv as [q Hq]; rewrite recordLimit_value in *.
  - rewrite !take_ge by lia. reflexivity.
  - rewrite take_take_drop. do 2 f_equal. lia.
  - rewrite take_take_drop, !take_ge by lia. reflexivity.
  - apply H.
    + exists (S q). lia.
    + lia.
    + rewrite take_take_drop. f_equal. lia.
Qed.

(** The records fetched so far are as many as the offset says, and a page
    of at most 50 records is only asked for below the limit. *)
Lemma closed_loop_length (page : nat -> Response A) (allClosed : list A)
    (offset : nat) :
  (forall o data, page o = Ok data -> length data <= 50) ->
  length allClosed = offset -> offset < recordLimit ->
  length (closed_loop page allClosed offset) < recordLimit + 50.
Proof.
  intros Hpage Hlen Hlt.
  funelim (closed_loop page allClosed offset); clear Heqcall;
    repeat match goal with H : decide _ = _ |- _ => clear H end;
    try (match goal with H : page _ = Ok _ |- _ => apply Hpage in H end);
    rewrite ?length_app; try lia.
  apply H; [exact Hpage | rewrite length_app; lia | lia].
Qed.

End Pagination.

(** X23. Against an API that serves the closed positions of a wallet by
    slices of 50, [fetchClosedPositions] returns all of them, in order,
    when they are fewer than 10000, and the first 10000 otherwise. *)
Theorem fetchClosedPositions_complete {A : Type} (records : list A) :
  fetchClosedPositions (slices 50 records) = take recordLimit records.
Proof.
  unfold fetchClosedPositions. apply closed_loop_slices.
  - exists 0. reflexivity.
  - rewrite recordLimit_value. lia.
  - reflexivity.
Qed.

(** X24. Against an API that serves the activity of a wallet by slices of
    500, [fetchAllActivity] does not fail and returns all the records, in
    order, when they are fewer than 10000, and the first 10000
    otherwise. *)
Theorem fetchAllActivity_complete {A : Type} (records : list A) :
  fetchAllActivity (slices 500 records) = Some (take recordLimit records).
Proof.
  unfold fetchAllActivity. apply activity_loop_slices.
  - exists 0. reflexivity.
  - rewrite recordLimit_value. lia.
  - reflexivity.
Qed.

(** X25. Whatever sequence of arrays, error statuses and failed requests
    the API answers with, [fetchClosedPositions] returns fewer than 10050
    records as long as no array holds more than the 50 records that were
    asked for. *)
Theorem fetchClosedPositions_bounded {A : Type} (page : nat -> Response A) :
  (forall o data, page o = Ok data -> length data <= 50) ->
  length (fetchClosedPositions page) < recordLimit + 50.
Proof.
  intros Hpage. apply closed_loop_length; [exact Hpage | reflexivity |].
  rewrite recordLimit_value. lia.
Qed.

Lemma fetchClosedPositions_bounded_witness :
  length (fetchClosedPositions (slices 50 (seq 0 120))) < recordLimit + 50.
Proof.
  apply (fetchClosedPositions_bounded (slices 50 (seq 0 120))).
  intros o data [= <-]. rewrite length_take. lia.
Defined.

Section FailedRequest.

Context {A : Type} (failure : Response A) (records : list A) (failed : nat).

Hypothesis failure_not_ok : forall data, failure <> Ok data.
Hypothesis failed_in_range : failed <= length records.
Hypothesis failed_below_limit : failed < recordLimit.

Lemma closed_loop_failing (allClosed : list A) (offset : nat) :
  (50 | failed) -> (50 | offset) -> offset <= failed ->
  allClosed = take offset records ->
  closed_loop (failing_at failure failed 50 records) allClosed offset
  = take failed records.
Proof using failure_not_ok failed_in_range failed_below_limit.
  intros Hfd Hdiv Hle Hall.
  funelim (closed_loop (failing_at failure failed 50 records) allClosed offset);
    clear Heqcall;
    repeat match goal with H : decide _ = _ |- _ => clear H end;
    destruct Hfd as [f Hf]; destruct Hdiv as [q Hq];
    rewrite recordLimit_value in *;
    unfold failing_at in *;
    match goal with
    | H : context [decide (?o = failed)] |- _ =>
        destruct (decide (o = failed)) as [Esame | Ediff]
    end;
    try (exfalso; eapply failure_not_ok; eassumption);
    try (rewrite Esame; reflexivity);
    try discriminate;
    match goal with H : slices _ _ _ = Ok _ |- _ => injection H as <- end;
    pose proof (length_take (drop offset0 records) 50) as Hlen;
    rewrite length_drop in Hlen; try (exfalso; lia).
  apply H; try assumption.
  - exists f. exact Hf.
  - exists (S q). lia.
  - lia.
  - rewrite take_take_drop. f_equal. lia.
Qed.

Lemma activity_loop_failing (allActivity : list A) (offset : nat) :
  (500 | failed) -> (500 | offset) -> offset <= failed ->
  activity_loop (failing_at failure failed 500 records) allActivity offset = None.
Proof using failure_not_ok failed_in_range failed_below_limit.
  intros Hfd Hdiv Hle.
  funelim (activity_loop (failing_at failure failed 500 records) allActivity offset);
    clear Heqcall;
    repeat match goal with H : decide _ = _ |- _ => clear H end;
    destruct Hfd as [f Hf]; destruct Hdiv as [q Hq];
    rewrite recordLimit_value in *;
    try reflexivity;
    unfold failing_at in *;
    match goal with
    | H : context [decide (?o = failed)] |- _ =>
        destruct (decide (o = failed)) as [Esame | Ediff]
    end;
    try (exfalso; eapply failure_not_ok; eassumption);
    match goal with
    | H : slices _ _ ?o = Ok _ |- _ =>
        pose proof (length_take (drop o records) 500) as Hlen;
        injection H as <-
    end;
    rewrite length_drop in Hlen; try (exfalso; lia).
  apply H; try assumption.
  - exists f. exact Hf.
  - exists (S q). lia.
  - lia.
Qed.

End FailedRequest.

(** X26. When one request fails, with any status or by an exception,
    [fetchClosedPositions] returns the records of the pages before it,
    whereas [fetchAllActivity] fails as a whole, whatever was fetched
    before. *)
Theorem failed_request {A : Type} (failure : Response A) (records : list A)
    (failed : nat) :
  (forall data, failure <> Ok data) ->
  failed <= length records -> failed < recordLimit ->
  ((50 | failed) ->
   fetchClosedPositions (failing_at failure failed 50 records)
   = take failed records) /\
  ((500 | failed) ->
   fetchAllActivity (failing_at failure failed 500 records) = None).
Proof.
  intros Hfail Hrange Hlimit. split; intros Hdiv.
  - unfold fetchClosedPositions. apply closed_loop_failing; try assumption.
    + exists 0. reflexivity.
    + lia.
    + reflexivity.
  - unfold fetchAllActivity. apply activity_loop_failing; try assumption.
    + exists 0. reflexivity.
    + lia.
Qed.

Lemma failed_request_witness :
  fetchClosedPositions (failing_at (NotOk 500) 100 50 (seq 0 120))
  = take 100 (seq 0 120).
Proof.
  apply (failed_request (NotOk 500) (seq 0 120) 100).
  - discriminate.
  - cbn. lia.
  - rewrite recordLimit_value. lia.
  - exists 2. reflexivity.
Defined.
